(** * Dataset Destroyer: a shallow embedding of [datasetDestroyer.py]

    The script degrades images through a chain of operators (blur, noise,
    compression, scale), optionally in random order, and writes the result.
    The embedding follows the script function by function.  Python values
    are modelled as follows:

    - [int] as [Z] (unbounded), [|] as [Z.lor];
    - [float] as IEEE-754 binary64, through the bit-exact operations of
      [SpecFloat] at precision 53 and maximal exponent 1024;
    - [str] as [string], lists as [list], the interpolation dict as a [gmap];
    - a numpy [uint8] image as its shape and its row-major sample list;
      a Python variable that may hold [None] as an [option];
    - exceptions, the random generators, logging and the file system through
      a state-and-exception monad [M] over a [World];
    - the pixel kernels of OpenCV, the codecs, [os.path] and what the file
      system answers to a write, which are not part of the script, as the
      fields of a record [Extern]. *)

From Stdlib Require Import ZArith Lia List Bool.
From Stdlib Require Import Floats.SpecFloat.
From stdpp Require Import base list strings gmap pretty.

Local Open Scope Z_scope.

(** ** Python floats *)

Module PyFloat.

Definition float : Type := spec_float.

Definition prec : Z := 53.
Definition emax : Z := 1024.

Definition fadd : float -> float -> float := SFadd prec emax.
Definition fsub : float -> float -> float := SFsub prec emax.
Definition fmul : float -> float -> float := SFmul prec emax.
Definition fdiv : float -> float -> float := SFdiv prec emax.

(** The literal [0.5] and the literal [1.25]. *)
Definition half : float := S754_finite false 4503599627370496 (-53).
Definition one_and_quarter : float := S754_finite false 5629499534213120 (-52).

(** The nearest binary64 value of an integer (ties to even); [None] when
    the integer is too large, where Python raises [OverflowError]. *)
Definition of_int (z : Z) : option float :=
  match binary_normalize prec emax z 0 false with
  | S754_infinity _ => None
  | f => Some f
  end.

(** The magnitude [m * 2^e] cut to an integer. *)
Definition trunc_mag (m : positive) (e : Z) : Z :=
  match e with
  | Z0 => Zpos m
  | Zpos p => Zpos m * 2 ^ Zpos p
  | Zneg p => Zpos m / 2 ^ Zpos p
  end.

Definition is_zero (f : float) : bool :=
  match f with S754_zero _ => true | _ => false end.

End PyFloat.

Import PyFloat.

(** ** Exceptions *)

(** The exception classes the script can raise, each with the name of the
    expression or call that raises it. *)
Inductive exn : Type :=
  | AttributeError (attr : string)
  | Cv2Error (fn : string)
  | FileNotFoundError (path : string)
  | IndexError (what : string)
  | KeyError (key : string)
  | NoOptionError (option_name : string)
  | OSError (path : string)
  | OverflowError (what : string)
  | UnboundLocalError (var : string)
  | ValueError (what : string)
  | ZeroDivisionError (what : string).

Inductive outcome (A : Type) : Type :=
  | Ok (a : A)
  | Raise (e : exn).
Arguments Ok {A} a.
Arguments Raise {A} e.

(** ** Images *)

(** A [height x width x 3] array of [uint8] samples, row-major. *)
Record image : Type := Image {
  height : Z;
  width : Z;
  data : list Z
}.

(** A variable bound to an image or to [None]. *)
Definition pyimage : Type := option image.

Definition shape (im : image) : Z * Z * Z := (height im, width im, 3).

(** ** The world: randomness, files, log *)

Inductive log_record : Type :=
  | LogReshape (e : exn)        (* 'Error reshaping output from ffmpeg: {e}' *)
  | LogDimensions (w h : Z)     (* 'Image dimensions: {width}x{height}' *)
  | LogStderr (err : list Z).   (* 'ffmpeg stderr output: {err}' *)

Record World : Type := MkWorld {
  tape : nat -> Z;                       (* the draws of the generators *)
  cursor : nat;                          (* how many were consumed *)
  disk : string -> pyimage;              (* what cv2.imread decodes *)
  dirs : list string;                    (* directories made *)
  written : list (string * image);       (* images written, latest first *)
  logged : list log_record               (* logging.error, latest first *)
}.

Definition M (A : Type) : Type := World -> outcome A * World.

#[export] Instance M_ret : MRet M := fun A a w => (Ok a, w).
#[export] Instance M_bind : MBind M := fun A B f m w =>
  match m w with
  | (Ok a, w') => f a w'
  | (Raise e, w') => (Raise e, w')
  end.

Definition raise {A : Type} (e : exn) : M A := fun w => (Raise e, w).

(** [try: body except ValueError as e: handler e]. *)
Definition try_except_ValueError {A : Type} (body : M A) (handler : exn -> M A) : M A :=
  fun w =>
    match body w with
    | (Raise (ValueError s), w') => handler (ValueError s) w'
    | r => r
    end.

Definition logging_error (r : log_record) : M unit := fun w =>
  (Ok tt, MkWorld (tape w) (cursor w) (disk w) (dirs w) (written w) (r :: logged w)).

(** The next raw draw of the generator. *)
Definition draw : M Z := fun w =>
  (Ok (tape w (cursor w)),
   MkWorld (tape w) (S (cursor w)) (disk w) (dirs w) (written w) (logged w)).

(** [random._randbelow(n)] for [n > 0]: uniform in [0, n). *)
Definition randbelow (n : Z) : M Z :=
  r ← draw; mret (r mod n).

(** [random.randint(a, b)]: both bounds included, [ValueError] on an empty
    range. *)
Definition randint (range : Z * Z) : M Z :=
  let '(a, b) := range in
  if b <? a then raise (ValueError "randint")
  else r ← randbelow (b - a + 1); mret (a + r).

(** [random.choice(seq)]: [IndexError] on an empty sequence. *)
Definition choice {A : Type} (seq : list A) : M A :=
  match seq with
  | [] => raise (IndexError "choice")
  | x :: _ =>
      i ← randbelow (Z.of_nat (length seq));
      mret (default x (seq !! Z.to_nat i))
  end.

(** [x[i], x[j] = x[j], x[i]] for indices in range. *)
Definition swap {A : Type} (x : list A) (i j : nat) : list A :=
  match x !! i, x !! j with
  | Some xi, Some xj => <[j := xi]> (<[i := xj]> x)
  | _, _ => x
  end.

(** [random.shuffle(x)]:
    [for i in reversed(range(1, len(x))): j = randbelow(i + 1); swap]. *)
Fixpoint shuffle_from {A : Type} (i : nat) (x : list A) : M (list A) :=
  match i with
  | O => mret x
  | S i' =>
      j ← randbelow (Z.of_nat i + 1);
      shuffle_from i' (swap x i (Z.to_nat j))
  end.

Definition shuffle {A : Type} (x : list A) : M (list A) :=
  shuffle_from (length x - 1)%nat x.

(** [np.random.uniform(low, high)]: [low + (high - low) * u] for a uniform
    [u] in [0, 1) with 53 random bits. *)
Definition np_random_uniform (range : float * float) : M float :=
  let '(low, high) := range in
  r ← draw;
  let u := binary_normalize prec emax (r mod 2 ^ 53) (-53) false in
  mret (fadd low (fmul (fsub high low) u)).

(** What [cv2.randn] leaves in a [uint8] array of [n] elements: samples
    saturated to [uint8]. *)
Fixpoint random_bytes (n : nat) : M (list Z) :=
  match n with
  | O => mret []
  | S n' => r ← draw; rest ← random_bytes n'; mret (r mod 256 :: rest)
  end.

(** [int(x)] on a float: truncation toward zero. *)
Definition py_int (what : string) (f : float) : M Z :=
  match f with
  | S754_zero _ => mret 0
  | S754_finite s m e => mret (cond_Zopp s (trunc_mag m e))
  | S754_infinity _ => raise (OverflowError what)
  | S754_nan => raise (ValueError what)
  end.

(** The implicit conversion of an [int] operand of a float operation. *)
Definition py_float (what : string) (z : Z) : M float :=
  match of_int z with
  | Some f => mret f
  | None => raise (OverflowError what)
  end.

(** [numpy.isfinite]. *)
Definition is_finite (f : float) : bool :=
  match f with
  | S754_zero _ | S754_finite _ _ _ => true
  | S754_infinity _ | S754_nan => false
  end.

(** One element of [x.astype(np.uint8)] for a float array [x]: the value is
    cut toward zero to a 32-bit integer of which the low eight bits are
    kept, so a negative sample wraps: [-5.0] becomes [251].  Outside the
    32-bit range, and for an infinity or a NaN, the conversion of the
    processor yields the integer [-2^31], whose low eight bits are [0]. *)
Definition astype_uint8 (f : float) : Z :=
  match f with
  | S754_finite s m e =>
      let z := cond_Zopp s (trunc_mag m e) in
      if (- 2 ^ 31 <=? z) && (z <? 2 ^ 31) then z mod 256 else 0
  | _ => 0
  end.

(** [n] samples [low + width * u], each for a uniform [u] in [0, 1) with
    53 random bits. *)
Fixpoint uniform_samples (n : nat) (low width : float) : M (list float) :=
  match n with
  | O => mret []
  | S n' =>
      r ← draw;
      let u := binary_normalize prec emax (r mod 2 ^ 53) (-53) false in
      rest ← uniform_samples n' low width;
      mret (fadd low (fmul width u) :: rest)
  end.

(** [np.random.uniform(low, high, shape)] for [int] bounds and a shape of
    [n] elements: the bounds become floats and their difference must be
    finite. *)
Definition np_random_uniform_array (low high : Z) (n : nat) : M (list float) :=
  low ← py_float "low" low;
  high ← py_float "high" high;
  let width := fsub high low in
  if is_finite width then uniform_samples n low width
  else raise (OverflowError "Range exceeds valid bounds").

(** A sample of the standard normal distribution: some binary64 value of
    magnitude below [2^53]. *)
Definition standard_normal : M float :=
  m ← draw;
  k ← draw;
  mret (binary_normalize prec emax (Z.rem m (2 ^ 53)) (- (k mod 1075)) false).

(** [n] samples [loc + scale * g], each for a standard normal [g]. *)
Fixpoint normal_samples (n : nat) (loc scale : float) : M (list float) :=
  match n with
  | O => mret []
  | S n' =>
      g ← standard_normal;
      rest ← normal_samples n' loc scale;
      mret (fadd loc (fmul scale g) :: rest)
  end.

(** [np.random.normal(loc, scale, shape)] for [int] arguments and a shape
    of [n] elements: a negative [scale] is refused. *)
Definition np_random_normal_array (loc scale : Z) (n : nat) : M (list float) :=
  loc' ← py_float "loc" loc;
  scale' ← py_float "scale" scale;
  if scale <? 0 then raise (ValueError "scale < 0")
  else normal_samples n loc' scale'.

(** ** What the script takes from its libraries *)

(** [cv2.INTER_*]. *)
Inductive interpolation : Type :=
  | INTER_NEAREST | INTER_LINEAR | INTER_CUBIC | INTER_AREA | INTER_LANCZOS4.

(** The arguments of one [cv2.putText] call. *)
Record putText_args : Type := PutText {
  pt_text : string;
  pt_org : Z * Z;              (* bottom-left corner of the text: (x, y) *)
  pt_fontFace : Z;
  pt_fontScale : float;
  pt_color : Z * Z * Z;
  pt_thickness : Z;
  pt_lineType : Z
}.

(** A value of the encoder's keyword arguments. *)
Inductive arg_value : Type :=
  | ArgInt (n : Z)
  | ArgStr (s : string).

(** The pixel kernels, the codecs, the path functions and the answers of
    the file system.  The script only calls them; nothing below depends on
    what they compute. *)
Record Extern : Type := MkExtern {
  blur_px : image -> Z * Z -> list Z;
  gaussian_px : image -> Z * Z -> Z -> Z -> list Z;
  resize_px : image -> Z * Z -> interpolation -> list Z;
  putText_px : image -> putText_args -> list Z;
  imencode_bytes : string -> image -> Z -> list Z;
  imdecode_image : list Z -> pyimage;
  ffmpeg_encode : string -> string -> list (string * arg_value) -> Z * Z -> list Z -> list Z;
  ffmpeg_decode : string -> list Z -> list Z * list Z;
  float_str : float -> string;         (* f"{x}" *)
  float_2f : float -> string;          (* f"{x:.2f}" *)
  os_path_join : string -> string -> string;
  os_path_relpath : string -> string -> string;
  os_path_splitext0 : string -> string;
  os_path_dirname : string -> string;
  os_path_samefile : string -> string -> bool;  (* both paths name one file *)
  makedirs_denied : string -> bool;     (* the directory cannot be made *)
  imwrite_has_writer : string -> bool;  (* an encoder for the extension *)
  imwrite_can_write : string -> bool;   (* the file can be created *)
  imread_back : string -> image -> pyimage  (* decoding the file written *)
}.

(** The values read from [config.ini]. *)
Record Config : Type := MkConfig {
  input_folder : string;
  output_folder : string;
  output_format : string;
  degradations : list string;
  degradations_randomize : bool;
  blur_algorithms : list string;
  blur_randomize : bool;
  blur_range : Z * Z;
  noise_algorithms : list string;
  noise_randomize : bool;
  noise_range : Z * Z;
  compression_algorithms : list string;
  compression_randomize : bool;
  jpeg_quality_range : Z * Z;
  webp_quality_range : Z * Z;
  h264_crf_level_range : Z * Z;
  hevc_crf_level_range : Z * Z;
  mpegbitrate : option string;
  mpeg2bitrate : option string;
  size_factor : float;
  scale_algorithms : list string;
  down_up_scale_algorithms : list string;
  scale_randomize : bool;
  scale_range : float * float;
  print_to_image : bool
}.

(** [seq[0]] and [seq[-1]]. *)
Definition first_item {A : Type} (what : string) (seq : list A) : M A :=
  match seq with
  | [] => raise (IndexError what)
  | x :: _ => mret x
  end.

Definition last_item {A : Type} (what : string) (seq : list A) : M A :=
  match last seq with
  | None => raise (IndexError what)
  | Some x => mret x
  end.

(** [choice(algorithms)] if the flag is set, else [algorithms[0]]. *)
Definition choose_algorithm (randomize : bool) (algorithms : list string) : M string :=
  if randomize then choice algorithms else first_item "algorithms[0]" algorithms.

(** [image.shape] on a variable that may hold [None]. *)
Definition get_shape (image : pyimage) : M (Z * Z * Z) :=
  match image with
  | None => raise (AttributeError "shape")
  | Some im => mret (shape im)
  end.

Definition INT_MAX : Z := 2147483647.

Section OpenCV.

Context (E : Extern).

(** [cv2.imread]: [None] when the file cannot be read or decoded. *)
Definition cv2_imread (path : string) : M pyimage := fun w => (Ok (disk w path), w).

(** [cv2.blur]: a box filter; the source must not be empty, and the
    kernel sides must be positive and fit the C [int] of the binding. *)
Definition cv2_blur (src : pyimage) (ksize : Z * Z) : M image :=
  match src with
  | None => raise (Cv2Error "blur")
  | Some im =>
      if (0 <? height im) && (0 <? width im)
         && (0 <? fst ksize) && (fst ksize <=? INT_MAX)
         && (0 <? snd ksize) && (snd ksize <=? INT_MAX)
      then mret (Image (height im) (width im) (blur_px E im ksize))
      else raise (Cv2Error "blur")
  end.

(** [cv2.GaussianBlur]: the source must not be empty; a kernel side that
    is not positive is derived from a positive sigma; after that both
    sides must be positive and odd, and fit the C [int] of the binding. *)
Definition cv2_GaussianBlur (src : pyimage) (ksize : Z * Z) (sigmaX sigmaY : Z) : M image :=
  match src with
  | None => raise (Cv2Error "GaussianBlur")
  | Some im =>
      let sigmaY := if sigmaY <=? 0 then sigmaX else sigmaY in
      let kw := if (fst ksize <=? 0) && (0 <? sigmaX)
                then Z.lor (6 * sigmaX + 1) 1 else fst ksize in
      let kh := if (snd ksize <=? 0) && (0 <? sigmaY)
                then Z.lor (6 * sigmaY + 1) 1 else snd ksize in
      if (0 <? height im) && (0 <? width im)
         && (0 <? kw) && (kw <=? INT_MAX) && Z.odd kw
         && (0 <? kh) && (kh <=? INT_MAX) && Z.odd kh
      then mret (Image (height im) (width im) (gaussian_px E im (kw, kh) sigmaX sigmaY))
      else raise (Cv2Error "GaussianBlur")
  end.

(** [cv2.resize(src, (w, h), interpolation=...)]: the result has [h] rows
    and [w] columns; an empty source or an empty target size is an error. *)
Definition cv2_resize (src : pyimage) (dsize : Z * Z) (interp : interpolation) : M image :=
  match src with
  | None => raise (Cv2Error "resize")
  | Some im =>
      let '(w, h) := dsize in
      if (0 <? height im) && (0 <? width im)
         && (0 <? w) && (w <=? INT_MAX) && (0 <? h) && (h <=? INT_MAX)
      then mret (Image h w (resize_px E im dsize interp))
      else raise (Cv2Error "resize")
  end.

(** The two additions on [uint8] samples: OpenCV's saturates at 255,
    numpy's wraps modulo 256. *)
Definition saturating_add (a n : Z) : Z := Z.min 255 (a + n).
Definition wrapping_add (a n : Z) : Z := (a + n) mod 256.

(** [cv2.add(image, noise)] on two [uint8] arrays. *)
Definition cv2_add (im : image) (noise : list Z) : image :=
  Image (height im) (width im) (zip_with saturating_add (data im) noise).

(** [image += noise] on numpy [uint8] arrays. *)
Definition np_iadd (im : image) (noise : list Z) : image :=
  Image (height im) (width im) (zip_with wrapping_add (data im) noise).

(** [gray_noise[..., None]] broadcast over the three channels: sample [i]
    of the image meets sample [i / 3] of the noise plane. *)
Definition broadcast_channels (plane : list Z) : list Z :=
  flat_map (fun n => [n; n; n]) plane.

(** [cv2.imencode(ext, image, [flag, quality])]. *)
Definition cv2_imencode (ext : string) (src : pyimage) (quality : Z) : M (list Z) :=
  match src with
  | None => raise (Cv2Error "imencode")
  | Some im => mret (imencode_bytes E ext im quality)
  end.

(** [cv2.imdecode(buf, 1).copy()]: [imdecode] gives [None] on failure. *)
Definition cv2_imdecode_copy (buf : list Z) : M image :=
  match imdecode_image E buf with
  | None => raise (AttributeError "copy")
  | Some im => mret im
  end.

(** [cv2.putText]: draws into the image; on [None] nothing is drawn and
    [None] comes back. *)
Definition cv2_putText (img : pyimage) (args : putText_args) : M pyimage :=
  match img with
  | None => mret None
  | Some im => mret (Some (Image (height im) (width im) (putText_px E im args)))
  end.

(** [os.makedirs(path, exist_ok=True)]: the empty path is an error, and so
    is a directory the file system refuses to make. *)
Definition os_makedirs (path : string) : M unit :=
  if String.eqb path "" then raise (FileNotFoundError path)
  else if makedirs_denied E path then raise (OSError path)
  else fun w =>
    (Ok tt, MkWorld (tape w) (cursor w) (disk w) (path :: dirs w) (written w) (logged w)).

(** The files after an image was written at [path]: a later [cv2.imread]
    of that file decodes what was written. *)
Definition disk_after_write (path : string) (im : image) (d : string -> pyimage)
    : string -> pyimage :=
  fun p => if String.eqb p path || os_path_samefile E p path
           then imread_back E path im else d p.

(** [cv2.imwrite]: an empty image and an extension without an encoder are
    errors; where the file cannot be created the call returns [False] and
    writes nothing; otherwise it writes the file and returns [True]. *)
Definition cv2_imwrite (path : string) (img : pyimage) : M bool :=
  match img with
  | None => raise (Cv2Error "imwrite")
  | Some im =>
      if negb (imwrite_has_writer E path) then raise (Cv2Error "imwrite")
      else if negb (imwrite_can_write E path) then mret false
      else fun w =>
        (Ok true, MkWorld (tape w) (cursor w) (disk_after_write path im (disk w))
                          (dirs w) ((path, im) :: written w) (logged w))
  end.

End OpenCV.

(** ** The script *)

Section Script.

Context (E : Extern) (config : Config).

Notation "a == b" := (String.eqb a b) (at level 70, no associativity).

(** [print_text_to_image]: the arguments handed to [cv2.putText]. *)
Definition print_text_args (text : string) (order : Z) : putText_args :=
  PutText (pretty order +:+ ". " +:+ text) (10, order * 50) 0
          (fmul one_and_quarter (size_factor config)) (255, 0, 0) 2 16.

Definition print_text_to_image (image : pyimage) (text : string) (order : Z) : M pyimage :=
  cv2_putText E image (print_text_args text order).

(** [2 * int(4 * sigma + 0.5) + 1]. *)
Definition ksize_of_sigma (sigma : Z) : M Z :=
  f ← py_float "4 * sigma + 0.5" (4 * sigma);
  n ← py_int "int(4 * sigma + 0.5)" (fadd f half);
  mret (2 * n + 1).

(** [randint( *blur_range) | 1]. *)
Definition gaussian_ksize : M Z :=
  k ← randint (blur_range config); mret (Z.lor k 1).

Definition apply_blur (image : pyimage) : M (pyimage * string) :=
  let text := "" in
  algorithm ← choose_algorithm (blur_randomize config) (blur_algorithms config);
  if algorithm == "average" then
    ksize ← randint (blur_range config);
    image ← cv2_blur E image (ksize, ksize);
    mret (Some image, algorithm +:+ " ksize=" +:+ pretty ksize)
  else if algorithm == "gaussian" then
    ksize ← gaussian_ksize;
    image ← cv2_GaussianBlur E image (ksize, ksize) 0 0;
    mret (Some image, algorithm +:+ " ksize=" +:+ pretty ksize)
  else if algorithm == "isotropic" then
    sigma ← randint (blur_range config);
    ksize ← ksize_of_sigma sigma;
    image ← cv2_GaussianBlur E image (ksize, ksize) sigma sigma;
    mret (Some image,
          algorithm +:+ " ksize=" +:+ pretty ksize +:+ " sigma=" +:+ pretty sigma)
  else if algorithm == "anisotropic" then
    sigma_x ← randint (blur_range config);
    sigma_y ← randint (blur_range config);
    ksize_x ← ksize_of_sigma sigma_x;
    ksize_y ← ksize_of_sigma sigma_y;
    image ← cv2_GaussianBlur E image (ksize_x, ksize_y) sigma_x sigma_y;
    mret (Some image,
          algorithm +:+ " sigma_x=" +:+ pretty sigma_x +:+ " sigma_y=" +:+ pretty sigma_y
          +:+ " ksize_x=" +:+ pretty ksize_x +:+ " ksize_y=" +:+ pretty ksize_y)
  else mret (image, text).

(** The number of samples of an array of the given shape. *)
Definition size_of (shp : Z * Z * Z) : nat :=
  let '(h, w, c) := shp in Z.to_nat (h * w * c).

Definition apply_noise (image : pyimage) : M (pyimage * string) :=
  let text := "" in
  algorithm ← choose_algorithm (noise_randomize config) (noise_algorithms config);
  if algorithm == "uniform" then
    intensity ← randint (noise_range config);
    shp ← get_shape image;
    noise ← np_random_uniform_array (- intensity) intensity (size_of shp);
    mret ((fun im => cv2_add im (map astype_uint8 noise)) <$> image,
          algorithm +:+ " intensity=" +:+ pretty intensity)
  else if algorithm == "gaussian" then
    intensity ← randint (noise_range config);
    shp ← get_shape image;
    noise ← np_random_normal_array 0 intensity (size_of shp);
    mret ((fun im => cv2_add im (map astype_uint8 noise)) <$> image,
          algorithm +:+ " intensity=" +:+ pretty intensity)
  else if algorithm == "color" then
    s0 ← randint (noise_range config);
    s1 ← randint (noise_range config);
    s2 ← randint (noise_range config);
    match image with
    | None => raise (Cv2Error "randn")
    | Some im =>
        noise ← random_bytes (size_of (shape im));
        mret (Some (np_iadd im noise),
              algorithm +:+ " s=(" +:+ pretty s0 +:+ ", " +:+ pretty s1
              +:+ ", " +:+ pretty s2 +:+ ")")
    end
  else if algorithm == "gray" then
    shp ← get_shape image;
    s ← randint (noise_range config);
    gray_noise ← random_bytes (size_of (shp.1.1, shp.1.2, 1));
    mret ((fun im => np_iadd im (broadcast_channels gray_noise)) <$> image,
          algorithm +:+ " s=(" +:+ pretty s +:+ ",)")
  else mret (image, text).

(** [f"{value}"] for a value of the encoder's arguments. *)
Definition arg_str (v : arg_value) : string :=
  match v with ArgInt n => pretty n | ArgStr s => s end.

(** [config.get('compression', name)]. *)
Definition config_get (name : string) (value : option string) : M string :=
  match value with
  | None => raise (NoOptionError name)
  | Some v => mret v
  end.

(** [np.frombuffer(out, np.uint8).reshape([height, width, 3]).copy()]. *)
Definition reshape (out : list Z) (height width : Z) : M image :=
  if Z.of_nat (length out) =? height * width * 3
  then mret (Image height width out)
  else raise (ValueError "reshape").

(** The codec name handed to the encoder. *)
Definition codec_of (algorithm : string) : string :=
  if algorithm == "mpeg" then "mpeg1video"
  else if algorithm == "mpeg2" then "mpeg2video"
  else algorithm.

(** [output_args]: the CRF level or the bitrate from the configuration. *)
Definition output_args_of (algorithm : string) : M (list (string * arg_value)) :=
  if algorithm == "h264" then
    crf_level ← randint (h264_crf_level_range config);
    mret [("crf", ArgInt crf_level)]
  else if algorithm == "hevc" then
    crf_level ← randint (hevc_crf_level_range config);
    mret [("crf", ArgInt crf_level); ("x265-params", ArgStr "log-level=0")]
  else if algorithm == "mpeg" then
    bitrate ← config_get "mpegbitrate" (mpegbitrate config);
    mret [("b", ArgStr bitrate)]
  else if algorithm == "mpeg2" then
    bitrate ← config_get "mpeg2bitrate" (mpeg2bitrate config);
    mret [("b", ArgStr bitrate)]
  else mret [].

(** The two ffmpeg processes: the frame is encoded into the container, the
    container is decoded back into raw [bgr24] bytes; the result is the
    decoder's [(out, err)]. *)
Definition codec_round_trip (algorithm : string) (output_args : list (string * arg_value))
    (im : image) : list Z * list Z :=
  let container := "mpeg" in
  let encoded :=
    ffmpeg_encode E (codec_of algorithm) container output_args
                  (width im, height im) (data im) in
  ffmpeg_decode E container encoded.

(** The branch of [apply_compression] for [h264], [hevc], [mpeg], [mpeg2]. *)
Definition compress_video (algorithm : string) (image : pyimage) : M (pyimage * string) :=
  match image with
  | None => raise (AttributeError "shape")
  | Some im =>
      let '(height, width, _) := shape im in
      output_args ← output_args_of algorithm;
      let '(out, err) := codec_round_trip algorithm output_args im in
      try_except_ValueError
        (image ← reshape out height width;
         first_arg ← first_item "list(output_args.items())[0]" output_args;
         mret (Some image,
               algorithm +:+ " " +:+ first_arg.1 +:+ "=" +:+ arg_str first_arg.2))
        (fun e =>
           logging_error (LogReshape e);;
           logging_error (LogDimensions width height);;
           logging_error (LogStderr err);;
           raise e)
  end.

Definition apply_compression (image : pyimage) : M (pyimage * string) :=
  let text := "" in
  algorithm ← choose_algorithm (compression_randomize config) (compression_algorithms config);
  if algorithm == "jpeg" then
    quality ← randint (jpeg_quality_range config);
    encimg ← cv2_imencode E ".jpg" image quality;
    image ← cv2_imdecode_copy E encimg;
    mret (Some image, algorithm +:+ " quality=" +:+ pretty quality)
  else if algorithm == "webp" then
    quality ← randint (webp_quality_range config);
    encimg ← cv2_imencode E ".webp" image quality;
    image ← cv2_imdecode_copy E encimg;
    mret (Some image, algorithm +:+ " quality=" +:+ pretty quality)
  else if (algorithm == "h264") || (algorithm == "hevc")
          || (algorithm == "mpeg") || (algorithm == "mpeg2") then
    compress_video algorithm image
  else mret (image, text).

Definition interpolation_map : gmap string interpolation :=
  list_to_map [("bicubic", INTER_CUBIC); ("bilinear", INTER_LINEAR);
               ("box", INTER_AREA); ("nearest", INTER_NEAREST);
               ("lanczos", INTER_LANCZOS4)].

(** [interpolation_map[key]]. *)
Definition interpolation_of (key : string) : M interpolation :=
  match interpolation_map !! key with
  | None => raise (KeyError key)
  | Some i => mret i
  end.

(** [int(n * factor)] for an integer [n] and a float [factor]. *)
Definition scaled (n : Z) (factor : float) : M Z :=
  f ← py_float "int * float" n;
  py_int "int(n * factor)" (fmul f factor).

(** [a / b] on floats. *)
Definition py_truediv (a b : float) : M float :=
  if is_zero b then raise (ZeroDivisionError "float division by zero")
  else mret (fdiv a b).

(** [algorithm1] and [algorithm2] of the [down_up] branch. *)
Definition down_up_pair : M (string * string) :=
  if scale_randomize config then
    algorithm1 ← choice (down_up_scale_algorithms config);
    algorithm2 ← choice (down_up_scale_algorithms config);
    mret (algorithm1, algorithm2)
  else
    algorithm1 ← first_item "down_up_scale_algorithms[0]" (down_up_scale_algorithms config);
    algorithm2 ← last_item "down_up_scale_algorithms[-1]" (down_up_scale_algorithms config);
    mret (algorithm1, algorithm2).

Definition apply_scale (image : pyimage) : M (pyimage * string) :=
  let text := "" in
  '(h, w, _) ← get_shape image;
  new_h ← scaled h (size_factor config);
  new_w ← scaled w (size_factor config);
  algorithm ← choose_algorithm (scale_randomize config) (scale_algorithms config);
  if algorithm == "down_up" then
    '(algorithm1, algorithm2) ← down_up_pair;
    scale_factor ← np_random_uniform (scale_range config);
    mid_w ← scaled w scale_factor;
    mid_h ← scaled h scale_factor;
    interp1 ← interpolation_of algorithm1;
    image ← cv2_resize E image (mid_w, mid_h) interp1;
    interp2 ← interpolation_of algorithm2;
    image ← cv2_resize E (Some image) (new_w, new_h) interp2;
    if print_to_image config then
      ratio ← py_truediv (size_factor config) scale_factor;
      mret (Some image,
            algorithm +:+ " scale1factor=" +:+ float_2f E scale_factor
            +:+ " scale1algorithm=" +:+ algorithm1
            +:+ " scale2factor=" +:+ float_2f E ratio
            +:+ " scale2algorithm=" +:+ algorithm2)
    else mret (Some image, text)
  else
    interp ← interpolation_of algorithm;
    image ← cv2_resize E image (new_w, new_h) interp;
    if print_to_image config then
      mret (Some image, algorithm +:+ " size factor=" +:+ float_str E (size_factor config))
    else mret (Some image, text).

(** [degradation_order = degradations.copy()], shuffled if the flag is set. *)
Definition degradation_order : M (list string) :=
  let degradation_order := degradations config in
  if degradations_randomize config then shuffle degradation_order
  else mret degradation_order.

(** The variables of [process_image] that the first loop reads and writes:
    [image], [text] (unbound before the first operator ran) and [all_text]. *)
Record loop_state : Type := LoopState {
  ls_image : pyimage;
  ls_text : option string;
  ls_all_text : list string
}.

(** One iteration of [for order, degradation in enumerate(degradation_order, 1)]. *)
Definition degrade_step (st : loop_state) (degradation : string) : M loop_state :=
  '(image, text) ←
    (if degradation == "blur" then
       '(i, t) ← apply_blur (ls_image st); mret (i, Some t)
     else if degradation == "noise" then
       '(i, t) ← apply_noise (ls_image st); mret (i, Some t)
     else if degradation == "compression" then
       '(i, t) ← apply_compression (ls_image st); mret (i, Some t)
     else if degradation == "scale" then
       '(i, t) ← apply_scale (ls_image st); mret (i, Some t)
     else mret (ls_image st, ls_text st));
  match text with
  | None => raise (UnboundLocalError "text")
  | Some t =>
      mret (LoopState image (Some t) (ls_all_text st ++ [degradation +:+ " " +:+ t]))
  end.

Fixpoint degrade_loop (st : loop_state) (order : list string) : M loop_state :=
  match order with
  | [] => mret st
  | degradation :: rest => st' ← degrade_step st degradation; degrade_loop st' rest
  end.

(** [for order, text in enumerate(all_text, 1): image = print_text_to_image(...)],
    entered with the counter at [order]. *)
Fixpoint annotate_from (order : Z) (image : pyimage) (all_text : list string) : M pyimage :=
  match all_text with
  | [] => mret image
  | text :: rest =>
      image ← print_text_to_image image text order;
      annotate_from (order + 1) image rest
  end.

Definition output_path_of (image_path : string) : string :=
  let output_path :=
    os_path_join E (output_folder config)
                 (os_path_relpath E image_path (input_folder config)) in
  os_path_splitext0 E output_path +:+ "." +:+ output_format config.

Definition process_image (image_path : string) : M unit :=
  image ← cv2_imread image_path;
  degradation_order ← degradation_order;
  st ← degrade_loop (LoopState image None []) degradation_order;
  image ← (if print_to_image config
           then annotate_from 1 (ls_image st) (ls_all_text st)
           else mret (ls_image st));
  let output_path := output_path_of image_path in
  os_makedirs E (os_path_dirname E output_path);;
  _ ← cv2_imwrite E output_path image;
  mret tt.

End Script.

(** ** A concrete environment for running the script *)

Module Demo.

(** Nearest-neighbour sampling of sample [i] of an [h x w x 3] target. *)
Definition nearest_sample (im : image) (w h : Z) (i : Z) : Z :=
  let c := i mod 3 in
  let x := (i / 3) mod w in
  let y := i / 3 / w in
  let sx := x * width im / w in
  let sy := y * height im / h in
  nth (Z.to_nat ((sy * width im + sx) * 3 + c)) (data im) 0.

Definition nearest_px (im : image) (dsize : Z * Z) : list Z :=
  let '(w, h) := dsize in
  map (fun i => nearest_sample im w h (Z.of_nat i)) (seq 0 (Z.to_nat (h * w * 3))).

Definition slash : Ascii.ascii := Ascii.Ascii true true true true false true false false.
Definition dot : Ascii.ascii := Ascii.Ascii false true true true false true false false.

(** [s.rpartition(c)]: the parts before and after the last [c]. *)
Fixpoint rpartition (c : Ascii.ascii) (s : string) : option (string * string) :=
  match s with
  | EmptyString => None
  | String a r =>
      match rpartition c r with
      | Some (hd, tl) => Some (String a hd, tl)
      | None => if Ascii.eqb a c then Some (EmptyString, r) else None
      end
  end.

Fixpoint only_dots (s : string) : bool :=
  match s with
  | EmptyString => true
  | String a r => Ascii.eqb a dot && only_dots r
  end.

Fixpoint strip_prefix (p s : string) : option string :=
  match p, s with
  | EmptyString, _ => Some s
  | String a p', String b s' => if Ascii.eqb a b then strip_prefix p' s' else None
  | String _ _, EmptyString => None
  end.

(** [posixpath.join] of a directory without a closing slash and a relative
    path. *)
Definition join (a b : string) : string :=
  if String.eqb a "" then b else a +:+ "/" +:+ b.

(** [posixpath.relpath] of a path that lies below [start]. *)
Definition relpath (p start : string) : string :=
  match strip_prefix (start +:+ "/") p with
  | Some r => r
  | None => p
  end.

(** [posixpath.dirname] of a relative path. *)
Definition dirname (p : string) : string :=
  match rpartition slash p with
  | Some (hd, _) => hd
  | None => ""
  end.

(** [posixpath.splitext(p)[0]]: the extension starts at the last dot of the
    file name, leading dots apart. *)
Definition splitext0 (p : string) : string :=
  match rpartition dot p with
  | Some (hd, tl) =>
      let name := match rpartition slash hd with
                  | Some (_, n) => n
                  | None => hd
                  end in
      if bool_decide (is_Some (rpartition slash tl)) || only_dots name then p else hd
  | None => p
  end.

(** Kernels that leave the samples alone, a lossless image codec, a video
    codec whose decoder emits [decoded frame] and no diagnostics, POSIX
    paths, and a file system that takes every directory and every image
    with its samples as they are. *)
Definition extern (decoded : list Z -> list Z) : Extern := {|
  blur_px := fun im _ => data im;
  gaussian_px := fun im _ _ _ => data im;
  resize_px := fun im dsize _ => nearest_px im dsize;
  putText_px := fun im _ => data im;
  imencode_bytes := fun _ im _ => height im :: width im :: data im;
  imdecode_image := fun buf =>
    match buf with
    | h :: w :: d => Some (Image h w d)
    | _ => None
    end;
  ffmpeg_encode := fun _ _ _ _ frame => frame;
  ffmpeg_decode := fun _ encoded => (decoded encoded, []);
  float_str := fun _ => "<float>";
  float_2f := fun _ => "<float>";
  os_path_join := join;
  os_path_relpath := relpath;
  os_path_splitext0 := splitext0;
  os_path_dirname := dirname;
  os_path_samefile := String.eqb;
  makedirs_denied := fun _ => false;
  imwrite_has_writer := fun _ => true;
  imwrite_can_write := fun _ => true;
  imread_back := fun _ im => Some im
|}.

(** A configuration with the given degradation list, first-choice
    algorithms, size factor and flags; the ranges are those of the sample
    [config.ini]. *)
Definition configure (degradation_list : list string)
    (blur noise compression scale : string) (factor : float)
    (print randomize : bool) : Config := {|
  input_folder := "in";
  output_folder := "out";
  output_format := "png";
  degradations := degradation_list;
  degradations_randomize := randomize;
  blur_algorithms := [blur; "average"; "gaussian"; "isotropic"; "anisotropic"];
  blur_randomize := false;
  blur_range := (1, 6);
  noise_algorithms := [noise; "uniform"; "gaussian"; "color"; "gray"];
  noise_randomize := false;
  noise_range := (0, 16);
  compression_algorithms := [compression; "h264"; "hevc"; "mpeg"; "mpeg2"; "jpeg"; "webp"];
  compression_randomize := false;
  jpeg_quality_range := (40, 100);
  webp_quality_range := (40, 100);
  h264_crf_level_range := (23, 32);
  hevc_crf_level_range := (25, 34);
  mpegbitrate := Some "4200k";
  mpeg2bitrate := Some "4200k";
  size_factor := factor;
  scale_algorithms := [scale; "down_up"; "bicubic"; "bilinear"; "box"; "nearest"; "lanczos"];
  down_up_scale_algorithms := ["bicubic"; "bilinear"; "box"; "nearest"; "lanczos"];
  scale_randomize := false;
  scale_range := (half, S754_finite false 4503599627370496 (-52));
  print_to_image := print
|}.

(** The same configuration with another blur range. *)
Definition with_blur_range (range : Z * Z) (c : Config) : Config :=
  MkConfig (input_folder c) (output_folder c) (output_format c) (degradations c)
           (degradations_randomize c) (blur_algorithms c) (blur_randomize c) range
           (noise_algorithms c) (noise_randomize c) (noise_range c)
           (compression_algorithms c) (compression_randomize c)
           (jpeg_quality_range c) (webp_quality_range c)
           (h264_crf_level_range c) (hevc_crf_level_range c)
           (mpegbitrate c) (mpeg2bitrate c) (size_factor c) (scale_algorithms c)
           (down_up_scale_algorithms c) (scale_randomize c) (scale_range c)
           (print_to_image c).

Definition config : Config :=
  configure ["blur"; "noise"; "compression"; "scale"]
            "gaussian" "uniform" "h264" "down_up" half true false.

(** An image of 2 rows and 3 columns. *)
Definition picture : image :=
  Image 2 3 [10; 20; 30;  40; 50; 60;  70; 80; 90;
             250; 251; 252;  0; 128; 255;  1; 2; 3].

(** A world whose generator yields [f 0], [f 1], ... and whose only readable
    file is ["in/a.png"]. *)
Definition world (f : nat -> Z) : World :=
  MkWorld f 0 (fun path => if String.eqb path "in/a.png" then Some picture else None)
          [] [] [].

End Demo.

(** ** The configuration lists and the batch *)

(** [s.split(sep)] for a separator of one character: the pieces between
    the occurrences of [sep], empty pieces included; [''.split(sep)] is
    [['']]. *)
Fixpoint py_split (sep : Ascii.ascii) (s : string) : list string :=
  match s with
  | EmptyString => [""]
  | String c rest =>
      if Ascii.eqb c sep then "" :: py_split sep rest
      else match py_split sep rest with
           | piece :: pieces => String c piece :: pieces
           | [] => [String c ""]
           end
  end.

(** The character [','] (code 44). *)
Definition comma : Ascii.ascii := Ascii.Ascii false false true true false true false false.

(** [config.get(section, option).split(',')]: how the script reads
    [degradations] and the algorithm lists. *)
Definition split_commas (raw : string) : list string := py_split comma raw.

Section Batch.

Context (E : Extern) (config : Config).

(** [for image_path in tqdm(image_paths): process_image(image_path)]. *)
Fixpoint process_images (image_paths : list string) : M unit :=
  match image_paths with
  | [] => mret tt
  | image_path :: rest => process_image E config image_path;; process_images rest
  end.

End Batch.

(** * The vocabulary of the statements *)

(** The world after one more draw. *)
Definition advance (w : World) : World :=
  MkWorld (tape w) (S (cursor w)) (disk w) (dirs w) (written w) (logged w).

(** The same world with another generator. *)
Definition set_tape (t : nat -> Z) (w : World) : World :=
  MkWorld t (cursor w) (disk w) (dirs w) (written w) (logged w).

(** The world after the three [logging.error] calls of the handler. *)
Definition reshape_failure_logged (w : World) (e : exn) (width height : Z) (err : list Z)
    : World :=
  MkWorld (tape w) (cursor w) (disk w) (dirs w) (written w)
          (LogStderr err :: LogDimensions width height :: LogReshape e :: logged w).

(** The integer part of a float, rounded toward zero: the exact value
    [(-1)^s * m * 2^e] written as a fraction, and the quotient cut.
    Infinities and NaN have none. *)
Definition trunc (f : float) : option Z :=
  match f with
  | S754_zero _ => Some 0
  | S754_finite s m e =>
      Some (Z.quot (cond_Zopp s (Zpos m) * 2 ^ Z.max e 0) (2 ^ Z.max (- e) 0))
  | S754_infinity _ | S754_nan => None
  end.

(** [trunc(n * factor)], the product taken in binary64. *)
Definition trunc_scaled (n : Z) (factor : float) : option Z :=
  f ← of_int n; trunc (fmul f factor).

(** A [uint8] sample. *)
Definition is_byte (v : Z) : Prop := 0 <= v < 256.

(** An image with at least one row and one column. *)
Definition non_empty (im : image) : Prop := 0 < height im /\ 0 < width im.


(** The [putText] calls of the annotation loop entered at [order]. *)
Fixpoint annotation_calls (config : Config) (order : Z) (all_text : list string)
    : list putText_args :=
  match all_text with
  | [] => []
  | text :: rest => print_text_args config text order :: annotation_calls config (order + 1) rest
  end.

(** What [cv2.putText] makes of an image. *)
Definition drawn (E : Extern) (im : image) (args : putText_args) : image :=
  Image (height im) (width im) (putText_px E im args).

(** The path [p] is neither the path [q] nor another name of its file. *)
Definition other_file (E : Extern) (p q : string) : bool :=
  negb (String.eqb p q || os_path_samefile E p q).

(** A computation that writes no image. *)
Definition keeps_written {A : Type} (m : M A) : Prop :=
  forall w, written (m w).2 = written w.

(** A float whose integer part, if it has one, is not negative. *)
Definition not_negative (f : float) : Prop :=
  match f with
  | S754_finite s _ _ | S754_infinity s => s = false
  | S754_zero _ | S754_nan => True
  end.

(** [2 * floor(4 * sigma + 0.5) + 1], the sum [4 * sigma + 0.5] written as
    the fraction [(2 * (4 * sigma) + 1) / 2]. *)
Definition kernel_size_formula (sigma : Z) : Z :=
  2 * ((2 * (4 * sigma) + 1) / 2) + 1.

(** [sep.join(pieces)]. *)
Fixpoint py_join (sep : Ascii.ascii) (pieces : list string) : string :=
  match pieces with
  | [] => ""
  | [piece] => piece
  | piece :: rest => piece +:+ String sep (py_join sep rest)
  end.

(** The number of occurrences of a character. *)
Fixpoint occurrences (c : Ascii.ascii) (s : string) : nat :=
  match s with
  | EmptyString => 0
  | String c' rest => (if Ascii.eqb c' c then 1 else 0) + occurrences c rest
  end.

(** A view of the world that ignores how many draws were made. *)
Definition cursor_blind {B : Type} (view : World -> B) : Prop :=
  forall w c,
    view (MkWorld (tape w) c (disk w) (dirs w) (written w) (logged w)) = view w.

(** A view of the world that ignores the log. *)
Definition log_blind {B : Type} (view : World -> B) : Prop :=
  forall w l,
    view (MkWorld (tape w) (cursor w) (disk w) (dirs w) (written w) l) = view w.

(** A computation that leaves a view of the world as it found it,
    whatever its outcome. *)
Definition preserves {A B : Type} (view : World -> B) (m : M A) : Prop :=
  forall w, view (m w).2 = view w.

(** The generator's tape and the files: what is read, made and written. *)
Definition file_system (w : World) : (nat -> Z) * (string -> pyimage) * list string
                                     * list (string * image) :=
  (tape w, disk w, dirs w, written w).

(** A computation that logs nothing, unless it ends on the [ValueError] of
    the reshape, which it has then logged with the dimensions and the
    decoder's diagnostics. *)
Definition logs_only_reshape {A : Type} (m : M A) : Prop :=
  forall w,
    logged (m w).2 = logged w \/
    exists width height err,
      (m w).1 = Raise (ValueError "reshape") /\
      logged (m w).2
      = LogStderr err :: LogDimensions width height
        :: LogReshape (ValueError "reshape") :: logged w.

(** The names the degradation loop dispatches on. *)
Definition known_degradations : list string := ["blur"; "noise"; "compression"; "scale"].

(** The literal [0.25]. *)
Definition quarter : float := S754_finite false 4503599627370496 (-54).

(** A configuration without the two bitrate options and with the given
    first compression algorithm and size factor. *)
Definition without_bitrates (compression : string) (factor : float) (c : Config) : Config :=
  MkConfig (input_folder c) (output_folder c) (output_format c) (degradations c)
           (degradations_randomize c) (blur_algorithms c) (blur_randomize c)
           (blur_range c) (noise_algorithms c) (noise_randomize c) (noise_range c)
           (compression :: compression_algorithms c) (compression_randomize c)
           (jpeg_quality_range c) (webp_quality_range c)
           (h264_crf_level_range c) (hevc_crf_level_range c)
           None None factor (scale_algorithms c)
           (down_up_scale_algorithms c) (scale_randomize c) (scale_range c)
           (print_to_image c).

(** * Properties *)

(** ** Running the monad *)

Lemma run_bind {A B : Type} (m : M A) (f : A -> M B) (w : World) :
  (m ≫= f) w = match m w with
               | (Ok a, w') => f a w'
               | (Raise e, w') => (Raise e, w')
               end.
Proof. reflexivity. Qed.

Lemma run_ret {A : Type} (a : A) (w : World) : (mret a : M A) w = (Ok a, w).
Proof. reflexivity. Qed.

Lemma run_bind_ok {A B : Type} (m : M A) (f : A -> M B) (w w' : World) (a : A) :
  m w = (Ok a, w') -> (m ≫= f) w = f a w'.
Proof. intros H. rewrite run_bind, H. reflexivity. Qed.

Lemma run_bind_raise {A B : Type} (m : M A) (f : A -> M B) (w w' : World) (e : exn) :
  m w = (Raise e, w') -> (m ≫= f) w = (Raise e, w').
Proof. intros H. rewrite run_bind, H. reflexivity. Qed.

Lemma bind_ok_inv {A B : Type} (m : M A) (f : A -> M B) (w w' : World) (r : B) :
  (m ≫= f) w = (Ok r, w') ->
  exists a w1, m w = (Ok a, w1) /\ f a w1 = (Ok r, w').
Proof.
  rewrite run_bind. destruct (m w) as [[a | e] w1]; [| discriminate].
  intros H. exists a, w1. split; [reflexivity | exact H].
Qed.

(** Take the first bind of a successful run apart. *)
Tactic Notation "bind_inv" hyp(H) "as" ident(a) ident(Ha) :=
  let w := fresh "w" in
  apply bind_ok_inv in H as (a & w & Ha & H).

Lemma ret_ok_inv {A : Type} (a b : A) (w w' : World) :
  (mret a : M A) w = (Ok b, w') -> b = a /\ w' = w.
Proof. rewrite run_ret. intros [= -> ->]. auto. Qed.

Lemma run_draw (w : World) : draw w = (Ok (tape w (cursor w)), advance w).
Proof. reflexivity. Qed.

Lemma run_randbelow (n : Z) (w : World) :
  randbelow n w = (Ok (tape w (cursor w) mod n), advance w).
Proof. reflexivity. Qed.

Lemma run_randint (a b : Z) (w : World) :
  a <= b ->
  randint (a, b) w = (Ok (a + tape w (cursor w) mod (b - a + 1)), advance w).
Proof.
  intros Hab. unfold randint.
  destruct (Z.ltb_spec b a) as [Hlt | _]; [lia | reflexivity].
Qed.



(** ** The degradation order *)

Section Shuffle.

Context {A : Type}.

Lemma insert_swap_head (x : list A) (j : nat) (a b : A) :
  x !! j = Some b -> b :: <[j := a]> x ≡ₚ a :: x.
Proof.
  revert j. induction x as [| c x IH]; intros [| j] Hj; simplify_eq/=.
  - apply Permutation_swap.
  - rewrite (Permutation_swap c b), (IH j Hj). apply Permutation_swap.
Qed.

Lemma swap_Permutation (x : list A) (i j : nat) : swap x i j ≡ₚ x.
Proof.
  unfold swap.
  destruct (x !! i) as [xi |] eqn:Hi; [| reflexivity].
  destruct (x !! j) as [xj |] eqn:Hj; [| reflexivity].
  revert i j Hi Hj.
  induction x as [| c x IH]; intros [| i] [| j] Hi Hj; simplify_eq/=.
  - reflexivity.
  - apply insert_swap_head, Hj.
  - apply insert_swap_head, Hi.
  - f_equiv. apply IH; assumption.
Qed.

Lemma shuffle_from_Permutation (i : nat) (x : list A) (w : World) :
  exists x' w', shuffle_from i x w = (Ok x', w') /\ x' ≡ₚ x.
Proof.
  revert x w. induction i as [| i IH]; intros x w.
  - exists x, w. split; reflexivity.
  - cbn [shuffle_from]. rewrite run_bind, run_randbelow.
    destruct (IH (swap x (S i) (Z.to_nat (tape w (cursor w) mod (Z.of_nat (S i) + 1))))
                 (advance w)) as (x' & w' & Hrun & Hperm).
    exists x', w'. split; [exact Hrun |].
    rewrite Hperm. apply swap_Permutation.
Qed.

Lemma shuffle_Permutation (x : list A) (w : World) :
  exists x' w', shuffle x w = (Ok x', w') /\ x' ≡ₚ x.
Proof. apply shuffle_from_Permutation. Qed.

End Shuffle.

(** C1: the order computed by [process_image] (lines 254-257) is always
    produced, is a permutation of the configured list, hence of the same
    length, whether or not [randomize] is set; when [randomize] is false it
    is the configured list itself and no random draw is made. *)
Theorem degradation_order_is_permutation (config : Config) (w : World) :
  exists order w',
    degradation_order config w = (Ok order, w') /\
    order ≡ₚ degradations config /\
    length order = length (degradations config) /\
    (degradations_randomize config = false ->
     order = degradations config /\ w' = w).
Proof.
  unfold degradation_order.
  destruct (degradations_randomize config) eqn:Hrand.
  - destruct (shuffle_Permutation (degradations config) w) as (x' & w' & Hrun & Hperm).
    exists x', w'. repeat split; try assumption; try discriminate.
    rewrite Hperm. reflexivity.
  - exists (degradations config), w. repeat split; reflexivity.
Qed.

(** ** The video-codec path of the compression operator *)

Lemma run_reshape (out : list Z) (h w : Z) (wd : World) :
  reshape out h w wd =
  if Z.of_nat (length out) =? h * w * 3 then (Ok (Image h w out), wd)
  else (Raise (ValueError "reshape"), wd).
Proof. unfold reshape. destruct (_ =? _); reflexivity. Qed.

(** The four video algorithms always pass at least one encoder argument. *)
Lemma output_args_nonempty (config : Config) (algorithm : string) (w w1 : World)
    (args : list (string * arg_value)) :
  algorithm ∈ ["h264"; "hevc"; "mpeg"; "mpeg2"] ->
  output_args_of config algorithm w = (Ok args, w1) ->
  args <> [].
Proof.
  intros Hin. unfold output_args_of.
  assert (Hcases : algorithm = "h264" \/ algorithm = "hevc" \/
                   algorithm = "mpeg" \/ algorithm = "mpeg2").
  { rewrite !elem_of_cons, elem_of_nil in Hin. tauto. }
  destruct Hcases as [-> | [-> | [-> | ->]]]; cbn [String.eqb Ascii.eqb Bool.eqb];
    rewrite run_bind.
  - destruct (randint _ w) as [[k | e] w']; [| discriminate].
    rewrite run_ret. intros [= <- _]. discriminate.
  - destruct (randint _ w) as [[k | e] w']; [| discriminate].
    rewrite run_ret. intros [= <- _]. discriminate.
  - destruct (config_get _ _ w) as [[k | e] w']; [| discriminate].
    rewrite run_ret. intros [= <- _]. discriminate.
  - destruct (config_get _ _ w) as [[k | e] w']; [| discriminate].
    rewrite run_ret. intros [= <- _]. discriminate.
Qed.

(** The video-codec path, once the encoder arguments are fixed. *)
Lemma compress_video_reshape (E : Extern) (config : Config) (algorithm : string)
    (im : image) (w w1 : World) (args : list (string * arg_value)) :
  output_args_of config algorithm w = (Ok args, w1) ->
  let out := (codec_round_trip E algorithm args im).1 in
  let err := (codec_round_trip E algorithm args im).2 in
  let expected := height im * width im * 3 in
  (Z.of_nat (length out) <> expected ->
   compress_video E config algorithm (Some im) w =
   (Raise (ValueError "reshape"),
    reshape_failure_logged w1 (ValueError "reshape") (width im) (height im) err)) /\
  (forall r w2,
     compress_video E config algorithm (Some im) w = (Ok r, w2) ->
     Z.of_nat (length out) = expected /\
     r.1 = Some (Image (height im) (width im) out)) /\
  (Z.of_nat (length out) = expected ->
   algorithm ∈ ["h264"; "hevc"; "mpeg"; "mpeg2"] ->
   exists text,
     compress_video E config algorithm (Some im) w =
     (Ok (Some (Image (height im) (width im) out), text), w1)).
Proof.
  intros Hargs out err expected. subst out err expected.
  unfold compress_video. cbn [shape]. rewrite run_bind, Hargs.
  destruct (codec_round_trip E algorithm args im) as [out err]. cbn [fst snd].
  unfold try_except_ValueError. rewrite run_bind, run_reshape.
  destruct (Z.eqb_spec (Z.of_nat (length out)) (height im * width im * 3)) as [Heq | Hne].
  - split; [intros Hne; contradiction |]. split.
    + intros r w2. destruct args as [| first_arg rest]; [discriminate |].
      cbn. intros [= <- _]. split; [exact Heq | reflexivity].
    + intros _ Hin. pose proof (output_args_nonempty _ _ _ _ _ Hin Hargs) as Hnil.
      destruct args as [| first_arg rest]; [contradiction |].
      eexists. reflexivity.
  - split; [intros _; reflexivity |]. split.
    + intros r w2. cbn. discriminate.
    + intros Heq. contradiction.
Qed.

(** The operator enters the video-codec path for the four video names. *)
Lemma apply_compression_video_path (E : Extern) (config : Config) (image : pyimage)
    (w w0 : World) (algorithm : string) :
  choose_algorithm (compression_randomize config) (compression_algorithms config) w
    = (Ok algorithm, w0) ->
  algorithm ∈ ["h264"; "hevc"; "mpeg"; "mpeg2"] ->
  apply_compression E config image w = compress_video E config algorithm image w0.
Proof.
  intros Halg Hin. unfold apply_compression. erewrite run_bind_ok by exact Halg.
  rewrite !elem_of_cons, elem_of_nil in Hin.
  destruct Hin as [-> | [-> | [-> | [-> | []]]]]; reflexivity.
Qed.

(** C2: in the video-codec path of the compression operator ([h264],
    [hevc], [mpeg], [mpeg2]), once the encoder arguments are fixed, the
    decoded byte stream [out] decides the step.  If its length differs from
    [height * width * 3] the step raises the [ValueError] of the reshape,
    after logging it with the dimensions and the decoder's diagnostics; an
    image is returned only when the length matches, and then it is exactly
    [out] in the shape of the input: never a truncated or padded array. *)
Theorem video_reshape_exact (E : Extern) (config : Config) (algorithm : string)
    (im : image) (w w0 w1 : World) (args : list (string * arg_value)) :
  choose_algorithm (compression_randomize config) (compression_algorithms config) w
    = (Ok algorithm, w0) ->
  algorithm ∈ ["h264"; "hevc"; "mpeg"; "mpeg2"] ->
  output_args_of config algorithm w0 = (Ok args, w1) ->
  let out := (codec_round_trip E algorithm args im).1 in
  let err := (codec_round_trip E algorithm args im).2 in
  let expected := height im * width im * 3 in
  (Z.of_nat (length out) <> expected ->
   apply_compression E config (Some im) w =
   (Raise (ValueError "reshape"),
    reshape_failure_logged w1 (ValueError "reshape") (width im) (height im) err)) /\
  (forall r w2,
     apply_compression E config (Some im) w = (Ok r, w2) ->
     Z.of_nat (length out) = expected /\
     r.1 = Some (Image (height im) (width im) out)) /\
  (Z.of_nat (length out) = expected ->
   exists text,
     apply_compression E config (Some im) w =
     (Ok (Some (Image (height im) (width im) out), text), w1)).
Proof.
  intros Halg Hin Hargs.
  rewrite (apply_compression_video_path E config (Some im) w w0 algorithm Halg Hin).
  destruct (compress_video_reshape E config algorithm im w0 w1 args Hargs)
    as (Hbad & Honly & Hgood).
  split; [exact Hbad |]. split; [exact Honly |].
  intros Heq. apply Hgood; assumption.
Qed.

Lemma video_reshape_exact_witness :
  apply_compression (Demo.extern (fun _ => [1; 2; 3])) Demo.config
                    (Some Demo.picture) (Demo.world (fun _ => 0)) =
  (Raise (ValueError "reshape"),
   reshape_failure_logged
     (advance (Demo.world (fun _ => 0))) (ValueError "reshape") 3 2 []).
Proof.
  apply (video_reshape_exact (Demo.extern (fun _ => [1; 2; 3])) Demo.config "h264"
           Demo.picture (Demo.world (fun _ => 0)) (Demo.world (fun _ => 0))
           (advance (Demo.world (fun _ => 0)))
           [("crf", ArgInt 23)] eq_refl
           ltac:(rewrite !elem_of_cons; left; reflexivity) eq_refl).
  vm_compute. discriminate.
Defined.

(** ** The scale operator *)

Lemma trunc_mag_quot (s : bool) (m : positive) (e : Z) :
  cond_Zopp s (trunc_mag m e)
  = Z.quot (cond_Zopp s (Zpos m) * 2 ^ Z.max e 0) (2 ^ Z.max (- e) 0).
Proof.
  destruct e as [| p | p]; cbn [trunc_mag].
  - change (Z.max 0 0) with 0. change (Z.max (- 0) 0) with 0.
    rewrite Z.pow_0_r, Z.mul_1_r, Z.quot_1_r. reflexivity.
  - rewrite (Z.max_l (Zpos p) 0) by lia. rewrite (Z.max_r (- Zpos p) 0) by lia.
    rewrite Z.pow_0_r, Z.quot_1_r. destruct s; cbn [cond_Zopp]; lia.
  - rewrite (Z.max_r (Zneg p) 0) by lia. change (- Zneg p) with (Zpos p).
    rewrite (Z.max_l (Zpos p) 0) by lia. rewrite Z.pow_0_r, Z.mul_1_r.
    assert (Hpow : 0 < 2 ^ Zpos p) by (apply Z.pow_pos_nonneg; lia).
    destruct s; cbn [cond_Zopp].
    + change (- Zpos m) with (- (Zpos m)). rewrite Z.quot_opp_l by lia.
      rewrite Z.quot_div_nonneg by lia. reflexivity.
    + rewrite Z.quot_div_nonneg by lia. reflexivity.
Qed.

(** [int(x)] is [trunc x], and raises exactly where [trunc] is undefined. *)
Lemma run_py_int (what : string) (f : float) (w : World) :
  match trunc f with
  | Some z => py_int what f w = (Ok z, w)
  | None => exists e, py_int what f w = (Raise e, w)
  end.
Proof.
  destruct f as [s | s | | s m e]; cbn [trunc py_int].
  - reflexivity.
  - eexists. reflexivity.
  - eexists. reflexivity.
  - rewrite <- trunc_mag_quot. reflexivity.
Qed.

(** [int(n * factor)] is [trunc_scaled n factor] and leaves the world alone. *)
Lemma run_scaled (n : Z) (factor : float) (w : World) :
  match trunc_scaled n factor with
  | Some z => scaled n factor w = (Ok z, w)
  | None => exists e, scaled n factor w = (Raise e, w)
  end.
Proof.
  unfold trunc_scaled, scaled, py_float. rewrite run_bind.
  destruct (of_int n) as [f |]; cbn [mbind option_bind].
  - rewrite run_ret. apply run_py_int.
  - eexists. reflexivity.
Qed.

Lemma scaled_ok (n : Z) (factor : float) (w w' : World) (z : Z) :
  scaled n factor w = (Ok z, w') <-> trunc_scaled n factor = Some z /\ w' = w.
Proof.
  pose proof (run_scaled n factor w) as Hrun.
  destruct (trunc_scaled n factor) as [z' |].
  - rewrite Hrun. split; [intros [= -> ->] | intros [[= ->] ->]]; auto.
  - destruct Hrun as [e ->]. split; [discriminate | intros [[=] _]].
Qed.

Lemma cv2_resize_ok_inv (E : Extern) (src : pyimage) (w h : Z) (interp : interpolation)
    (wd wd' : World) (out : image) :
  cv2_resize E src (w, h) interp wd = (Ok out, wd') ->
  height out = h /\ width out = w /\ wd' = wd.
Proof.
  unfold cv2_resize. destruct src as [im |]; [| discriminate].
  destruct (_ && _); [| discriminate].
  rewrite run_ret. intros [= <- <-]. auto.
Qed.

Lemma run_cv2_resize (E : Extern) (im : image) (w h : Z) (interp : interpolation)
    (wd : World) :
  0 < height im -> 0 < width im -> 0 < w <= INT_MAX -> 0 < h <= INT_MAX ->
  cv2_resize E (Some im) (w, h) interp wd
  = (Ok (Image h w (resize_px E im (w, h) interp)), wd).
Proof.
  intros Hh Hw Hdw Hdh. unfold cv2_resize.
  replace (0 <? height im) with true by (symmetry; apply Z.ltb_lt; lia).
  replace (0 <? width im) with true by (symmetry; apply Z.ltb_lt; lia).
  replace (0 <? w) with true by (symmetry; apply Z.ltb_lt; lia).
  replace (0 <? h) with true by (symmetry; apply Z.ltb_lt; lia).
  replace (w <=? INT_MAX) with true by (symmetry; apply Z.leb_le; lia).
  replace (h <=? INT_MAX) with true by (symmetry; apply Z.leb_le; lia).
  reflexivity.
Qed.

(** Whenever the scale operator returns, the image it returns has the
    truncated target dimensions, on the direct path and on [down_up]. *)
Lemma apply_scale_ok_dimensions (E : Extern) (config : Config) (im : image)
    (w w' : World) (img : pyimage) (text : string) :
  apply_scale E config (Some im) w = (Ok (img, text), w') ->
  exists out,
    img = Some out /\
    trunc_scaled (height im) (size_factor config) = Some (height out) /\
    trunc_scaled (width im) (size_factor config) = Some (width out).
Proof.
  unfold apply_scale. cbn [get_shape shape]. intros H.
  bind_inv H as shp Hshape. apply ret_ok_inv in Hshape as [-> ->].
  bind_inv H as new_h Hnh. apply scaled_ok in Hnh as [Hnh ->].
  bind_inv H as new_w Hnw. apply scaled_ok in Hnw as [Hnw ->].
  bind_inv H as algorithm Halg. destruct (String.eqb algorithm "down_up").
  - bind_inv H as pair Hpair. destruct pair as [algorithm1 algorithm2].
    bind_inv H as scale_factor Hfactor.
    bind_inv H as mid_w Hmw. bind_inv H as mid_h Hmh.
    bind_inv H as interp1 Hi1. bind_inv H as mid Hmid.
    bind_inv H as interp2 Hi2. bind_inv H as out Hout.
    apply cv2_resize_ok_inv in Hout as (Hh & Hw & ->).
    exists out. rewrite Hh, Hw.
    destruct (print_to_image config).
    + bind_inv H as ratio Hratio. apply ret_ok_inv in H as [[= -> ->] ->]. auto.
    + apply ret_ok_inv in H as [[= -> ->] ->]. auto.
  - bind_inv H as interp Hi. bind_inv H as out Hout.
    apply cv2_resize_ok_inv in Hout as (Hh & Hw & ->).
    exists out. rewrite Hh, Hw.
    destruct (print_to_image config); apply ret_ok_inv in H as [[= -> ->] ->]; auto.
Qed.

(** A zero factor leaves no pixel: the truncated product is 0. *)
Lemma trunc_scaled_zero_factor (n z : Z) (factor : float) :
  is_zero factor = true -> trunc_scaled n factor = Some z -> z = 0.
Proof.
  destruct factor as [s | | |]; try discriminate. intros _.
  unfold trunc_scaled. destruct (of_int n) as [f |] eqn:Hf; [| discriminate].
  cbn [mbind option_bind].
  destruct f as [s' | s' | | s' m e]; cbn; try discriminate; congruence.
Qed.

Lemma down_up_not_an_interpolation : interpolation_map !! "down_up" = None.
Proof. reflexivity. Qed.

(** The direct path returns as soon as the algorithm has an interpolation
    kernel and neither the source nor the target is empty. *)
Lemma apply_scale_direct_returns (E : Extern) (config : Config) (im : image)
    (w w1 : World) (algorithm : string) (interp : interpolation) (new_h new_w : Z) :
  trunc_scaled (height im) (size_factor config) = Some new_h ->
  trunc_scaled (width im) (size_factor config) = Some new_w ->
  choose_algorithm (scale_randomize config) (scale_algorithms config) w
    = (Ok algorithm, w1) ->
  interpolation_map !! algorithm = Some interp ->
  0 < height im -> 0 < width im ->
  0 < new_h <= INT_MAX -> 0 < new_w <= INT_MAX ->
  exists text,
    apply_scale E config (Some im) w
    = (Ok (Some (Image new_h new_w (resize_px E im (new_w, new_h) interp)), text), w1).
Proof.
  intros Hnh Hnw Halg Hinterp Hh Hw Hbh Hbw.
  unfold apply_scale. cbn [get_shape]. rewrite run_bind, run_ret.
  unfold shape. cbv beta iota.
  erewrite run_bind_ok by (apply scaled_ok; eauto).
  erewrite run_bind_ok by (apply scaled_ok; eauto).
  erewrite run_bind_ok by exact Halg.
  destruct (String.eqb_spec algorithm "down_up") as [-> | _].
  { rewrite down_up_not_an_interpolation in Hinterp. discriminate. }
  unfold interpolation_of. rewrite Hinterp, run_bind, run_ret.
  rewrite run_bind, run_cv2_resize by assumption.
  destruct (print_to_image config); eexists; reflexivity.
Qed.

(** The [down_up] path returns as soon as both of its algorithms have an
    interpolation kernel and none of the three sizes is empty. *)
Lemma apply_scale_down_up_returns (E : Extern) (config : Config) (im : image)
    (w w1 w2 w3 : World) (algorithm1 algorithm2 : string) (interp1 interp2 : interpolation)
    (scale_factor : float) (new_h new_w mid_h mid_w : Z) :
  trunc_scaled (height im) (size_factor config) = Some new_h ->
  trunc_scaled (width im) (size_factor config) = Some new_w ->
  choose_algorithm (scale_randomize config) (scale_algorithms config) w
    = (Ok "down_up", w1) ->
  down_up_pair config w1 = (Ok (algorithm1, algorithm2), w2) ->
  np_random_uniform (scale_range config) w2 = (Ok scale_factor, w3) ->
  trunc_scaled (width im) scale_factor = Some mid_w ->
  trunc_scaled (height im) scale_factor = Some mid_h ->
  interpolation_map !! algorithm1 = Some interp1 ->
  interpolation_map !! algorithm2 = Some interp2 ->
  0 < height im -> 0 < width im ->
  0 < mid_h <= INT_MAX -> 0 < mid_w <= INT_MAX ->
  0 < new_h <= INT_MAX -> 0 < new_w <= INT_MAX ->
  exists text,
    apply_scale E config (Some im) w
    = (Ok (Some (Image new_h new_w
                   (resize_px E (Image mid_h mid_w (resize_px E im (mid_w, mid_h) interp1))
                              (new_w, new_h) interp2)), text), w3).
Proof.
  intros Hnh Hnw Halg Hpair Hfactor Hmw Hmh Hi1 Hi2 Hh Hw Hbmh Hbmw Hbh Hbw.
  unfold apply_scale. cbn [get_shape]. rewrite run_bind, run_ret.
  unfold shape. cbv beta iota.
  erewrite run_bind_ok by (apply scaled_ok; eauto).
  erewrite run_bind_ok by (apply scaled_ok; eauto).
  erewrite run_bind_ok by exact Halg.
  change (String.eqb "down_up" "down_up") with true. cbv iota.
  erewrite run_bind_ok by exact Hpair. cbv beta iota.
  erewrite run_bind_ok by exact Hfactor.
  erewrite run_bind_ok by (apply scaled_ok; eauto).
  erewrite run_bind_ok by (apply scaled_ok; eauto).
  unfold interpolation_of. rewrite Hi1, Hi2.
  rewrite run_bind, run_ret, run_bind, run_cv2_resize by assumption.
  rewrite run_bind, run_ret, run_bind, run_cv2_resize by (cbn [height width]; lia).
  destruct (print_to_image config); [| eexists; reflexivity].
  unfold py_truediv. destruct (is_zero scale_factor) eqn:Hzero.
  - pose proof (trunc_scaled_zero_factor _ _ _ Hzero Hmw). lia.
  - eexists. reflexivity.
Qed.

(** C3: for every input image, whichever scale algorithm is selected, an
    image returned by the scale operator has the dimensions
    [(trunc(h * size_factor), trunc(w * size_factor))], the product taken
    in binary64 and cut toward zero; this covers the direct path and the
    composite [down_up].  The operator does return on both paths whenever
    the selected algorithms have an interpolation kernel and no size
    involved is empty. *)
Theorem apply_scale_dimensions (E : Extern) (config : Config) (im : image) (w : World) :
  (forall img text w',
     apply_scale E config (Some im) w = (Ok (img, text), w') ->
     exists out,
       img = Some out /\
       trunc_scaled (height im) (size_factor config) = Some (height out) /\
       trunc_scaled (width im) (size_factor config) = Some (width out)) /\
  (forall new_h new_w,
     trunc_scaled (height im) (size_factor config) = Some new_h ->
     trunc_scaled (width im) (size_factor config) = Some new_w ->
     0 < height im -> 0 < width im ->
     0 < new_h <= INT_MAX -> 0 < new_w <= INT_MAX ->
     (forall algorithm interp w1,
        choose_algorithm (scale_randomize config) (scale_algorithms config) w
          = (Ok algorithm, w1) ->
        interpolation_map !! algorithm = Some interp ->
        exists out text,
          apply_scale E config (Some im) w = (Ok (Some out, text), w1) /\
          height out = new_h /\ width out = new_w) /\
     (forall algorithm1 algorithm2 interp1 interp2 scale_factor mid_h mid_w w1 w2 w3,
        choose_algorithm (scale_randomize config) (scale_algorithms config) w
          = (Ok "down_up", w1) ->
        down_up_pair config w1 = (Ok (algorithm1, algorithm2), w2) ->
        np_random_uniform (scale_range config) w2 = (Ok scale_factor, w3) ->
        trunc_scaled (width im) scale_factor = Some mid_w ->
        trunc_scaled (height im) scale_factor = Some mid_h ->
        interpolation_map !! algorithm1 = Some interp1 ->
        interpolation_map !! algorithm2 = Some interp2 ->
        0 < mid_h <= INT_MAX -> 0 < mid_w <= INT_MAX ->
        exists out text,
          apply_scale E config (Some im) w = (Ok (Some out, text), w3) /\
          height out = new_h /\ width out = new_w)).
Proof.
  split.
  - intros img text w'. apply apply_scale_ok_dimensions.
  - intros new_h new_w Hnh Hnw Hh Hw Hbh Hbw. split.
    + intros algorithm interp w1 Halg Hinterp.
      destruct (apply_scale_direct_returns E config im w w1 algorithm interp new_h new_w)
        as [text Hrun]; try assumption.
      eexists _, text. split; [exact Hrun | split; reflexivity].
    + intros a1 a2 i1 i2 scale_factor mid_h mid_w w1 w2 w3
             Halg Hpair Hfactor Hmw Hmh Hi1 Hi2 Hbmh Hbmw.
      destruct (apply_scale_down_up_returns E config im w w1 w2 w3 a1 a2 i1 i2
                  scale_factor new_h new_w mid_h mid_w) as [text Hrun]; try assumption.
      eexists _, text. split; [exact Hrun | split; reflexivity].
Qed.

Lemma apply_scale_dimensions_witness :
  exists out text,
    apply_scale (Demo.extern id)
      (Demo.configure [] "average" "uniform" "jpeg" "nearest" half false false)
      (Some Demo.picture) (Demo.world (fun _ => 0))
    = (Ok (Some out, text), Demo.world (fun _ => 0)) /\
    height out = 1 /\ width out = 1.
Proof.
  apply (proj1 (proj2 (apply_scale_dimensions (Demo.extern id)
           (Demo.configure [] "average" "uniform" "jpeg" "nearest" half false false)
           Demo.picture (Demo.world (fun _ => 0)))
         1 1 eq_refl eq_refl ltac:(reflexivity) ltac:(reflexivity)
         ltac:(unfold INT_MAX; lia) ltac:(unfold INT_MAX; lia))
         "nearest" INTER_NEAREST (Demo.world (fun _ => 0)) eq_refl eq_refl).
Defined.

(** ** Binary64 arithmetic on small integers *)

Lemma digits2_pos_size (p : positive) : digits2_pos p = Pos.size p.
Proof. induction p as [p IH | p IH |]; cbn; congruence. Qed.

(** The number of binary digits of a positive integer is its [log2] plus one. *)
Lemma Zdigits2_log2 (m : Z) : 0 < m -> Zdigits2 m = Z.log2 m + 1.
Proof.
  destruct m as [| p | p]; try lia. intros _. cbn [Zdigits2].
  rewrite digits2_pos_size. destruct p as [p | p |]; cbn; lia.
Qed.

(** The iterator of [SpecFloat] is the standard one. *)
Lemma iter_pos_iter {A : Type} (f : A -> A) (p : positive) (a : A) :
  SpecFloat.iter_pos f p a = Pos.iter f a p.
Proof.
  revert a. induction p as [p IH | p IH |]; intros a; cbn [SpecFloat.iter_pos Pos.iter].
  - rewrite !IH, !Pos.iter_swap. reflexivity.
  - rewrite !IH. reflexivity.
  - reflexivity.
Qed.

(** Appending [k] zero bits multiplies by [2^k]. *)
Lemma iter_xO (p k : positive) : Zpos (Pos.iter xO p k) = Zpos p * 2 ^ Zpos k.
Proof.
  induction k as [| k IH] using Pos.peano_ind.
  - cbn [Pos.iter]. lia.
  - rewrite Pos.iter_succ, Pos2Z.inj_xO, IH, Pos2Z.inj_succ, Z.pow_succ_r by lia. lia.
Qed.

(** Shifting out [k] zero bits is exact: no round bit, no sticky bit. *)
Lemma shr_exact (k x : positive) :
  SpecFloat.iter_pos shr_1 k (Build_shr_record (Zpos x * 2 ^ Zpos k) false false)
  = Build_shr_record (Zpos x) false false.
Proof.
  rewrite iter_pos_iter. revert x. induction k as [| k IH] using Pos.peano_ind; intros x.
  - cbn [Pos.iter]. rewrite Z.pow_1_r, Z.mul_comm. reflexivity.
  - rewrite Pos.iter_succ, Pos2Z.inj_succ, Z.pow_succ_r by lia.
    replace (Zpos x * (2 * 2 ^ Zpos k)) with (Zpos x~0 * 2 ^ Zpos k) by lia.
    rewrite IH. reflexivity.
Qed.

(** Rounding a 53-bit mantissa followed by [k] zero bits, in the normal
    range, only moves the [k] bits into the exponent. *)
Lemma binary_round_aux_exact (s : bool) (x : positive) (k e : Z) :
  0 <= k -> Z.log2 (Zpos x) = 52 -> -1074 <= e + k <= 971 ->
  binary_round_aux prec emax s (Zpos x * 2 ^ k) e loc_Exact = S754_finite s x (e + k).
Proof.
  intros Hk Hlog Hrange.
  assert (Hpow : 0 < 2 ^ k) by (apply Z.pow_pos_nonneg; lia).
  unfold binary_round_aux, shr_fexp.
  rewrite Zdigits2_log2 by lia.
  rewrite Z.log2_mul_pow2, Hlog by lia.
  unfold fexp, emin, prec, emax.
  replace (Z.max (k + 52 + 1 + e - 53) (3 - 1024 - 53) - e) with k by lia.
  assert (Hshr : shr (shr_record_of_loc (Zpos x * 2 ^ k) loc_Exact) e k
                 = (Build_shr_record (Zpos x) false false, e + k)).
  { destruct k as [| p | p]; cbn [shr shr_record_of_loc]; try lia.
    - rewrite Z.pow_0_r, Z.mul_1_r, Z.add_0_r. reflexivity.
    - rewrite shr_exact. reflexivity. }
  rewrite Hshr. cbn [shr_m loc_of_shr_record round_nearest_even].
  rewrite Zdigits2_log2, Hlog by lia.
  replace (Z.max (52 + 1 + (e + k) - 53) (3 - 1024 - 53) - (e + k)) with 0 by lia.
  cbn [shr shr_record_of_loc shr_m].
  destruct (Z.leb_spec (e + k) (1024 - 53)); [reflexivity | lia].
Qed.

(** Aligning to a smaller exponent shifts the mantissa left. *)
Lemma shl_align_le (mx : positive) (ex ex' : Z) :
  ex' <= ex ->
  exists mz, shl_align mx ex ex' = (mz, ex') /\ Zpos mz = Zpos mx * 2 ^ (ex - ex').
Proof.
  intros Hle. unfold shl_align. destruct (ex' - ex) as [| d | d] eqn:Hd; try lia.
  - exists mx. replace ex' with ex by lia. rewrite Z.sub_diag, Z.pow_0_r. split; [reflexivity | lia].
  - exists (Pos.iter xO mx d). rewrite iter_xO. replace (ex - ex') with (Zpos d) by lia.
    split; reflexivity.
Qed.

(** Aligning to a larger exponent does nothing. *)
Lemma shl_align_ge (mx : positive) (ex ex' : Z) :
  ex <= ex' -> shl_align mx ex ex' = (mx, ex).
Proof.
  intros Hle. unfold shl_align. destruct (ex' - ex) as [| d | d] eqn:Hd; try lia; reflexivity.
Qed.

(** A positive integer below [2^b] has fewer than [b] digits after the first. *)
Lemma log2_bounds (n : Z) (b : Z) : 0 < n < 2 ^ b -> 0 <= Z.log2 n < b.
Proof.
  intros [Hpos Hlt]. split; [apply Z.log2_nonneg |]. apply Z.log2_lt_pow2; assumption.
Qed.

(** The conversion of a positive integer below [2^53] is exact. *)
Lemma of_int_exact (n : Z) :
  0 < n < 2 ^ 53 ->
  exists mx,
    of_int n = Some (S754_finite false mx (Z.log2 n - 52)) /\
    Zpos mx = n * 2 ^ (52 - Z.log2 n).
Proof.
  intros Hn. pose proof (log2_bounds n 53 Hn) as HL.
  destruct n as [| p | p]; try lia.
  unfold of_int. cbn [binary_normalize]. unfold binary_round.
  change (Zpos (digits2_pos p)) with (Zdigits2 (Zpos p)).
  rewrite Zdigits2_log2 by lia.
  unfold fexp, emin, prec, emax.
  replace (Z.max (Z.log2 (Zpos p) + 1 + 0 - 53) (3 - 1024 - 53))
    with (Z.log2 (Zpos p) - 52) by lia.
  destruct (shl_align_le p 0 (Z.log2 (Zpos p) - 52)) as (mz & -> & Hmz); [lia |].
  replace (0 - (Z.log2 (Zpos p) - 52)) with (52 - Z.log2 (Zpos p)) in Hmz by lia.
  pose proof (binary_round_aux_exact false mz 0 (Z.log2 (Zpos p) - 52)) as Haux.
  rewrite Z.pow_0_r, Z.mul_1_r, Z.add_0_r in Haux. unfold prec, emax in Haux.
  rewrite Haux.
  - exists mz. split; [reflexivity | exact Hmz].
  - lia.
  - rewrite Hmz, Z.log2_mul_pow2 by lia. lia.
  - lia.
Qed.

(** Adding [0.5] to an integer below [2^52] is exact. *)
Lemma fadd_half_exact (n : Z) (mx : positive) :
  0 < n < 2 ^ 52 ->
  Zpos mx = n * 2 ^ (52 - Z.log2 n) ->
  exists mz,
    fadd (S754_finite false mx (Z.log2 n - 52)) half
    = S754_finite false mz (Z.log2 n - 52) /\
    Zpos mz = (2 * n + 1) * 2 ^ (51 - Z.log2 n).
Proof.
  intros Hn Hmx. pose proof (log2_bounds n 52 Hn) as HL.
  set (L := Z.log2 n) in *.
  unfold fadd, half, SFadd. cbn [cond_Zopp].
  rewrite Z.min_r by lia.
  destruct (shl_align_le mx (L - 52) (-53)) as (a & -> & Ha); [lia |].
  rewrite (shl_align_ge _ (-53) (-53)) by lia. cbn [fst].
  change (Zpos a + 4503599627370496) with (Zpos (a + 4503599627370496)).
  cbn [binary_normalize].
  assert (Hsum : Zpos (a + 4503599627370496) = (2 * n + 1) * 2 ^ 52).
  { rewrite Pos2Z.inj_add, Ha, Hmx. replace (L - 52 - -53) with (L + 1) by lia.
    rewrite <- Z.mul_assoc, <- Z.pow_add_r by lia.
    replace (52 - L + (L + 1)) with 53 by lia. lia. }
  assert (Hlog : Z.log2 (2 * n + 1) = L + 1).
  { unfold L. rewrite Z.log2_succ_double by lia. lia. }
  unfold binary_round.
  change (Zpos (digits2_pos (a + 4503599627370496)))
    with (Zdigits2 (Zpos (a + 4503599627370496))).
  rewrite Zdigits2_log2, Hsum by lia.
  rewrite Z.log2_mul_pow2, Hlog by lia.
  unfold fexp, emin, prec, emax.
  replace (Z.max (52 + (L + 1) + 1 + -53 - 53) (3 - 1024 - 53)) with (L - 52) by lia.
  rewrite shl_align_ge by lia.
  assert (Hx : 0 < (2 * n + 1) * 2 ^ (51 - L)).
  { apply Z.mul_pos_pos; [lia | apply Z.pow_pos_nonneg; lia]. }
  exists (Z.to_pos ((2 * n + 1) * 2 ^ (51 - L))).
  rewrite Z2Pos.id by exact Hx. split; [| reflexivity].
  pose proof (binary_round_aux_exact false (Z.to_pos ((2 * n + 1) * 2 ^ (51 - L)))
                (L + 1) (-53)) as Haux.
  rewrite Z2Pos.id in Haux by exact Hx.
  replace ((2 * n + 1) * 2 ^ (51 - L) * 2 ^ (L + 1)) with (Zpos (a + 4503599627370496))
    in Haux.
  2:{ rewrite Hsum, <- Z.mul_assoc, <- Z.pow_add_r by lia.
      replace (51 - L + (L + 1)) with 52 by lia. reflexivity. }
  unfold prec, emax in Haux. rewrite Haux.
  - replace (-53 + (L + 1)) with (L - 52) by lia. reflexivity.
  - lia.
  - rewrite Z.log2_mul_pow2, Hlog by lia. lia.
  - lia.
Qed.

(** Shifting out [k] zero bits clears the round bit and keeps what was
    lost before in the sticky bit. *)
Lemma shr_zeros (k x : positive) (r s : bool) :
  SpecFloat.iter_pos shr_1 k (Build_shr_record (Zpos x * 2 ^ Zpos k) r s)
  = Build_shr_record (Zpos x) false (r || s).
Proof.
  rewrite iter_pos_iter. revert x r s.
  induction k as [| k IH] using Pos.peano_ind; intros x r s.
  - cbn [Pos.iter]. rewrite Z.pow_1_r, Z.mul_comm. reflexivity.
  - rewrite Pos.iter_succ, Pos2Z.inj_succ, Z.pow_succ_r by lia.
    replace (Zpos x * (2 * 2 ^ Zpos k)) with (Zpos x~0 * 2 ^ Zpos k) by lia.
    rewrite IH. reflexivity.
Qed.

(** An integer of more than 53 bits whose low bits are zero converts
    exactly. *)
Lemma of_int_large_exact (x : positive) (j : Z) :
  Z.log2 (Zpos x) = 52 -> 0 <= j <= 971 ->
  of_int (Zpos x * 2 ^ j) = Some (S754_finite false x j).
Proof.
  intros Hlog Hj.
  assert (Hpow : 0 < 2 ^ j) by (apply Z.pow_pos_nonneg; lia).
  destruct (Zpos x * 2 ^ j) as [| p | p] eqn:Hp; try lia.
  unfold of_int. cbn [binary_normalize]. unfold binary_round.
  change (Zpos (digits2_pos p)) with (Zdigits2 (Zpos p)).
  rewrite Zdigits2_log2, <- Hp by lia.
  rewrite Z.log2_mul_pow2, Hlog by lia.
  unfold fexp, emin, prec, emax.
  rewrite shl_align_ge by lia. rewrite <- Hp.
  pose proof (binary_round_aux_exact false x j 0) as Haux.
  unfold prec, emax in Haux. rewrite Haux by lia. reflexivity.
Qed.

(** Adding [0.5] to such an integer gives it back: the half is rounded
    away, for an even integer also where it is a tie. *)
Lemma fadd_half_large (x : positive) (j : Z) :
  Z.log2 (Zpos x) = 52 -> 0 <= j <= 900 -> (j = 0 -> Z.even (Zpos x) = true) ->
  fadd (S754_finite false x j) half = S754_finite false x j.
Proof.
  intros Hlog Hj Heven.
  assert (Hpow : 0 < 2 ^ j) by (apply Z.pow_pos_nonneg; lia).
  unfold fadd, half, SFadd. cbn [cond_Zopp].
  rewrite Z.min_r by lia.
  destruct (shl_align_le x j (-53)) as (a & -> & Ha); [lia |].
  rewrite (shl_align_ge _ (-53) (-53)) by lia. cbn [fst].
  change (Zpos a + 4503599627370496) with (Zpos (a + 4503599627370496)).
  cbn [binary_normalize].
  set (y := Z.to_pos (Zpos x * 2 ^ j)).
  assert (Hy : Zpos y = Zpos x * 2 ^ j) by (unfold y; rewrite Z2Pos.id; lia).
  clearbody y.
  assert (Hsum : Zpos (a + 4503599627370496) = Zpos y~1 * 2 ^ 52).
  { rewrite Pos2Z.inj_add, Ha, Pos2Z.inj_xI, Hy.
    replace (j - -53) with (j + 53) by lia. rewrite Z.pow_add_r by lia. lia. }
  assert (Hlogy : Z.log2 (Zpos y~1) = j + 53).
  { rewrite Pos2Z.inj_xI, Z.log2_succ_double, Hy, Z.log2_mul_pow2, Hlog by lia. lia. }
  unfold binary_round.
  change (Zpos (digits2_pos (a + 4503599627370496)))
    with (Zdigits2 (Zpos (a + 4503599627370496))).
  rewrite Zdigits2_log2, Hsum by lia.
  rewrite Z.log2_mul_pow2, Hlogy by lia.
  unfold fexp, emin, prec, emax. rewrite shl_align_ge by lia.
  rewrite Hsum. unfold binary_round_aux, shr_fexp.
  rewrite Zdigits2_log2 by lia. rewrite Z.log2_mul_pow2, Hlogy by lia.
  unfold fexp, emin, prec, emax.
  replace (Z.max (52 + (j + 53) + 1 + -53 - 53) (3 - 1024 - 53) - -53) with (j + 53) by lia.
  assert (Hshr : shr (shr_record_of_loc (Zpos y~1 * 2 ^ 52) loc_Exact) (-53) (j + 53)
                 = (Build_shr_record (Zpos x) (j =? 0) (negb (j =? 0)), j)).
  { destruct (j + 53) as [| q | q] eqn:Hq; try lia. cbn [shr shr_record_of_loc].
    replace (-53 + Zpos q) with j by lia. f_equal.
    rewrite iter_pos_iter.
    destruct (Z.eq_dec j 0) as [-> | Hj0].
    - assert (q = 53%positive) as -> by lia.
      change 53%positive with (1 + 52)%positive. rewrite Pos.iter_add.
      rewrite <- (iter_pos_iter _ 52), (shr_zeros 52 y~1 false false).
      rewrite Z.pow_0_r, Z.mul_1_r in Hy. injection Hy as ->. reflexivity.
    - assert (Hq' : q = (Z.to_pos j + 1 + 52)%positive) by lia.
      rewrite Hq', !Pos.iter_add.
      rewrite <- (iter_pos_iter _ 52), (shr_zeros 52 y~1 false false).
      cbn [Pos.iter shr_1 shr_m shr_r shr_s orb].
      rewrite Hy. replace (2 ^ j) with (2 ^ Zpos (Z.to_pos j)) by (rewrite Z2Pos.id; lia).
      rewrite <- iter_pos_iter, shr_zeros.
      destruct (Z.eqb_spec j 0); [lia | reflexivity]. }
  rewrite Hshr. cbn [shr_m loc_of_shr_record].
  assert (Hround : round_nearest_even (Zpos x)
                     (loc_of_shr_record (Build_shr_record (Zpos x) (j =? 0) (negb (j =? 0))))
                   = Zpos x).
  { destruct (Z.eqb_spec j 0) as [H0 | H0]; cbn [negb loc_of_shr_record round_nearest_even].
    - rewrite (Heven H0). reflexivity.
    - reflexivity. }
  cbn [loc_of_shr_record] in Hround. rewrite Hround.
  rewrite Zdigits2_log2, Hlog by lia.
  replace (Z.max (52 + 1 + j - 53) (3 - 1024 - 53) - j) with 0 by lia.
  cbn [shr shr_record_of_loc shr_m].
  destruct (Z.leb_spec j (1024 - 53)); [reflexivity | lia].
Qed.



(** ** The noise operator *)








Lemma random_bytes_spec (n : nat) (w : World) :
  exists noise,
    random_bytes n w = (Ok noise, Nat.iter n advance w) /\
    length noise = n /\ Forall is_byte noise.
Proof.
  revert w. induction n as [| n IH]; intros w.
  - exists []. repeat split. constructor.
  - destruct (IH (advance w)) as (rest & Hrun & Hlen & Hbytes).
    exists (tape w (cursor w) mod 256 :: rest).
    cbn [random_bytes]. rewrite run_bind, run_draw, run_bind, Hrun, run_ret.
    rewrite Nat.iter_succ_r. repeat split.
    + cbn [length]. rewrite Hlen. reflexivity.
    + constructor; [| exact Hbytes]. apply Z.mod_pos_bound. lia.
Qed.

Lemma random_bytes_ok_inv (n : nat) (w w' : World) (noise : list Z) :
  random_bytes n w = (Ok noise, w') -> length noise = n /\ Forall is_byte noise.
Proof.
  destruct (random_bytes_spec n w) as (noise' & Hrun & Hlen & Hbytes).
  rewrite Hrun. intros [= <- _]. auto.
Qed.














(** ** The blur operator: kernel sizes *)

(** [k | 1] sets the lowest bit: an odd [k] stays, an even [k] becomes
    [k + 1]; this holds for negative [k] too (two's complement). *)
Lemma lor_1 (k : Z) : Z.lor k 1 = if Z.odd k then k else k + 1.
Proof.
  apply Z.bits_inj'. intros n Hn. rewrite Z.lor_spec.
  destruct (Z.eq_dec n 0) as [-> | Hpos].
  - rewrite Z.bit0_odd, Z.bit0_odd. change (Z.odd 1) with true. rewrite orb_true_r.
    destruct (Z.odd k) eqn:Hodd.
    + rewrite Z.bit0_odd. symmetry. exact Hodd.
    + rewrite Z.bit0_odd, Z.odd_add, Hodd. reflexivity.
  - replace (Z.testbit 1 n) with false.
    2:{ symmetry. replace n with (Z.succ (n - 1)) by lia.
        change 1 with (2 * 0 + 1). rewrite Z.testbit_odd_succ by lia.
        apply Z.testbit_0_l. }
    rewrite orb_false_r. destruct (Z.odd k) eqn:Hodd; [reflexivity |].
    replace n with (Z.succ (n - 1)) by lia.
    rewrite (Z.div_mod k 2) at 1 2 by lia.
    rewrite Zmod_odd, Hodd, Z.add_0_r.
    rewrite Z.testbit_even_succ, Z.testbit_odd_succ by lia. reflexivity.
Qed.

Lemma lor_1_odd (k : Z) : Z.odd (Z.lor k 1) = true.
Proof.
  rewrite <- Z.bit0_odd, Z.lor_spec, !Z.bit0_odd. apply orb_true_r.
Qed.

(** A blur of a present, non-empty image with a valid kernel returns the
    filtered samples in the shape of the input. *)
Lemma run_cv2_blur (E : Extern) (im : image) (k : Z) (w : World) :
  non_empty im -> 0 < k <= INT_MAX ->
  cv2_blur E (Some im) (k, k) w
  = (Ok (Image (height im) (width im) (blur_px E im (k, k))), w).
Proof.
  intros [Hh Hw] Hk. unfold cv2_blur. cbn [fst snd].
  destruct (Z.ltb_spec 0 (height im)); [| lia]. destruct (Z.ltb_spec 0 (width im)); [| lia].
  destruct (Z.ltb_spec 0 k); [| lia]. destruct (Z.leb_spec k INT_MAX); [| lia].
  reflexivity.
Qed.

Lemma run_cv2_GaussianBlur (E : Extern) (im : image) (kw kh sigmaX sigmaY : Z)
    (w : World) :
  non_empty im ->
  0 < kw <= INT_MAX -> Z.odd kw = true -> 0 < kh <= INT_MAX -> Z.odd kh = true ->
  cv2_GaussianBlur E (Some im) (kw, kh) sigmaX sigmaY w
  = (Ok (Image (height im) (width im)
           (gaussian_px E im (kw, kh) sigmaX (if sigmaY <=? 0 then sigmaX else sigmaY))),
     w).
Proof.
  intros [Hh Hw] Hkw Hoddw Hkh Hoddh. unfold cv2_GaussianBlur. cbn [fst snd].
  destruct (Z.leb_spec kw 0); [lia |]. destruct (Z.leb_spec kh 0); [lia |].
  cbn [andb]. rewrite Hoddw, Hoddh.
  destruct (Z.ltb_spec 0 (height im)); [| lia]. destruct (Z.ltb_spec 0 (width im)); [| lia].
  destruct (Z.ltb_spec 0 kw); [| lia]. destruct (Z.leb_spec kw INT_MAX); [| lia].
  destruct (Z.ltb_spec 0 kh); [| lia]. destruct (Z.leb_spec kh INT_MAX); [| lia].
  reflexivity.
Qed.

(** The [gaussian] branch of the operator: one draw, then the filter with
    the kernel [(k | 1, k | 1)] and sigma 0. *)
Lemma apply_blur_gaussian (E : Extern) (config : Config) (image : pyimage) (lo hi : Z)
    (w w1 : World) :
  choose_algorithm (blur_randomize config) (blur_algorithms config) w
    = (Ok "gaussian", w1) ->
  blur_range config = (lo, hi) ->
  lo <= hi ->
  let k := lo + tape w1 (cursor w1) mod (hi - lo + 1) in
  apply_blur E config image w
  = (out ← cv2_GaussianBlur E image (Z.lor k 1, Z.lor k 1) 0 0;
     mret (Some out, "gaussian ksize=" +:+ pretty (Z.lor k 1))) (advance w1).
Proof.
  intros Halg Hrange Hle k. unfold apply_blur, gaussian_ksize.
  erewrite run_bind_ok by exact Halg. cbn [String.eqb Ascii.eqb Bool.eqb].
  rewrite Hrange, run_bind, run_bind, run_randint, run_ret by exact Hle. reflexivity.
Qed.

(** C9: for the gaussian blur algorithm the kernel passed to
    [cv2.GaussianBlur], on both sides, is the sampled integer [k] with its
    lowest bit set, that is [k] when [k] is odd and [k + 1] when it is
    even, and the description names that size; where that size is a valid
    kernel side the operator returns the image filtered with it.  So when
    the upper bound of the blur range is even and the draw yields it, the
    image is filtered with a kernel one above that bound. *)
Theorem gaussian_ksize_or_1 (E : Extern) (config : Config) (im : image) (lo hi : Z)
    (w w1 : World) :
  choose_algorithm (blur_randomize config) (blur_algorithms config) w
    = (Ok "gaussian", w1) ->
  blur_range config = (lo, hi) ->
  lo <= hi ->
  let k := lo + tape w1 (cursor w1) mod (hi - lo + 1) in
  lo <= k <= hi /\
  randint (blur_range config) w1 = (Ok k, advance w1) /\
  Z.lor k 1 = (if Z.odd k then k else k + 1) /\
  apply_blur E config (Some im) w
  = (out ← cv2_GaussianBlur E (Some im) (Z.lor k 1, Z.lor k 1) 0 0;
     mret (Some out, "gaussian ksize=" +:+ pretty (Z.lor k 1))) (advance w1) /\
  (non_empty im -> 0 < Z.lor k 1 <= INT_MAX ->
   apply_blur E config (Some im) w
   = (Ok (Some (Image (height im) (width im)
                  (gaussian_px E im (Z.lor k 1, Z.lor k 1) 0 0)),
          "gaussian ksize=" +:+ pretty (Z.lor k 1)), advance w1)) /\
  (non_empty im -> Z.even hi = true -> 0 <= hi < INT_MAX ->
   tape w1 (cursor w1) mod (hi - lo + 1) = hi - lo ->
   k = hi /\
   apply_blur E config (Some im) w
   = (Ok (Some (Image (height im) (width im) (gaussian_px E im (hi + 1, hi + 1) 0 0)),
          "gaussian ksize=" +:+ pretty (hi + 1)), advance w1)).
Proof.
  intros Halg Hrange Hle k.
  pose proof (Z.mod_pos_bound (tape w1 (cursor w1)) (hi - lo + 1)) as Hmod.
  pose proof (apply_blur_gaussian E config (Some im) lo hi w w1 Halg Hrange Hle) as Hrun.
  cbv zeta in Hrun. fold k in Hrun.
  split; [unfold k; lia |].
  split; [rewrite Hrange; apply run_randint; exact Hle |].
  split; [apply lor_1 |]. split; [exact Hrun |]. split.
  - intros Him Hk. rewrite Hrun, run_bind.
    rewrite run_cv2_GaussianBlur by (auto using lor_1_odd). reflexivity.
  - intros Him Heven Hhi Hdraw.
    assert (Hk : k = hi) by (unfold k; lia). split; [exact Hk |].
    assert (Hlor : Z.lor k 1 = hi + 1).
    { rewrite lor_1, Hk, <- Z.negb_even, Heven. reflexivity. }
    rewrite Hrun, Hlor, run_bind.
    rewrite run_cv2_GaussianBlur; [reflexivity | exact Him | lia | | lia |];
      rewrite <- Hlor; apply lor_1_odd.
Qed.

Lemma gaussian_ksize_or_1_witness :
  apply_blur (Demo.extern id) Demo.config (Some Demo.picture) (Demo.world (fun _ => 5))
  = (Ok (Some (Image 2 3 (gaussian_px (Demo.extern id) Demo.picture (6 + 1, 6 + 1) 0 0)),
         "gaussian ksize=" +:+ pretty (6 + 1)), advance (Demo.world (fun _ => 5))).
Proof.
  apply (proj2 (proj2 (proj2 (proj2 (proj2
           (gaussian_ksize_or_1 (Demo.extern id) Demo.config Demo.picture 1 6
              (Demo.world (fun _ => 5)) (Demo.world (fun _ => 5))
              eq_refl eq_refl ltac:(lia))))))).
  - split; reflexivity.
  - reflexivity.
  - unfold INT_MAX. lia.
  - reflexivity.
Defined.

(** ** The degradation loop *)

(** A successful iteration leaves [text] bound and appends one line made
    of the degradation name and that text. *)
Lemma degrade_step_ok_inv (E : Extern) (config : Config) (st st' : loop_state)
    (degradation : string) (w w' : World) :
  degrade_step E config st degradation w = (Ok st', w') ->
  exists t,
    ls_text st' = Some t /\
    ls_all_text st' = ls_all_text st ++ [degradation +:+ " " +:+ t].
Proof.
  unfold degrade_step. intros H. bind_inv H as r Hr. destruct r as [image [t |]].
  - apply ret_ok_inv in H as [-> _]. exists t. split; reflexivity.
  - discriminate.
Qed.

(** C10: a degradation name other than [blur], [noise], [compression] and
    [scale] runs no operator.  If a description is bound from an earlier
    step, the image is left as it is and a line made of the unknown name
    and that earlier description is appended; if none is bound, which is
    the case when the name comes first in the order, the step raises
    [UnboundLocalError] and [process_image] fails there. *)
Theorem unknown_degradation_step (E : Extern) (config : Config) (name : string) :
  name ∉ ["blur"; "noise"; "compression"; "scale"] ->
  (forall st w,
     degrade_step E config st name w =
     match ls_text st with
     | Some t =>
         (Ok (LoopState (ls_image st) (Some t)
                        (ls_all_text st ++ [name +:+ " " +:+ t])), w)
     | None => (Raise (UnboundLocalError "text"), w)
     end) /\
  (forall st previous w st1 w1,
     degrade_step E config st previous w = (Ok st1, w1) ->
     exists t,
       ls_all_text st1 = ls_all_text st ++ [previous +:+ " " +:+ t] /\
       degrade_step E config st1 name w1
       = (Ok (LoopState (ls_image st1) (Some t)
                        (ls_all_text st1 ++ [name +:+ " " +:+ t])), w1)) /\
  (forall rest image_path w,
     degradations config = name :: rest ->
     degradations_randomize config = false ->
     process_image E config image_path w = (Raise (UnboundLocalError "text"), w)).
Proof.
  intros Hname. rewrite !elem_of_cons, elem_of_nil in Hname.
  assert (Hstep : forall st w,
     degrade_step E config st name w =
     match ls_text st with
     | Some t =>
         (Ok (LoopState (ls_image st) (Some t)
                        (ls_all_text st ++ [name +:+ " " +:+ t])), w)
     | None => (Raise (UnboundLocalError "text"), w)
     end).
  { intros st w. unfold degrade_step.
    destruct (String.eqb_spec name "blur"); [tauto |].
    destruct (String.eqb_spec name "noise"); [tauto |].
    destruct (String.eqb_spec name "compression"); [tauto |].
    destruct (String.eqb_spec name "scale"); [tauto |].
    rewrite run_bind, run_ret. destruct (ls_text st); reflexivity. }
  split; [exact Hstep |]. split.
  - intros st previous w st1 w1 Hprev.
    destruct (degrade_step_ok_inv _ _ _ _ _ _ _ Hprev) as (t & Htext & Hall).
    exists t. split; [exact Hall |]. rewrite Hstep, Htext. reflexivity.
  - intros rest image_path w Hdeg Hrand. unfold process_image.
    rewrite run_bind. unfold cv2_imread at 1. cbv beta iota.
    unfold degradation_order. rewrite Hrand, Hdeg, run_bind, run_ret.
    rewrite run_bind. cbn [degrade_loop]. rewrite run_bind, Hstep. reflexivity.
Qed.

Lemma unknown_degradation_step_witness :
  process_image (Demo.extern id)
    (Demo.configure ["sharpen"; "blur"] "average" "uniform" "jpeg" "nearest" half true false)
    "in/a.png" (Demo.world (fun _ => 0))
  = (Raise (UnboundLocalError "text"), Demo.world (fun _ => 0)).
Proof.
  apply (proj2 (proj2 (unknown_degradation_step (Demo.extern id)
           (Demo.configure ["sharpen"; "blur"] "average" "uniform" "jpeg" "nearest"
                           half true false) "sharpen"
           ltac:(rewrite !elem_of_cons, elem_of_nil;
                 intros [H | [H | [H | [H | []]]]]; discriminate H)))
         ["blur"] "in/a.png" (Demo.world (fun _ => 0)) eq_refl eq_refl).
Defined.

(** ** Annotation *)

Lemma run_annotate_from (E : Extern) (config : Config) (order : Z) (im : image)
    (all_text : list string) (w : World) :
  annotate_from E config order (Some im) all_text w
  = (Ok (Some (foldl (drawn E) im (annotation_calls config order all_text))), w).
Proof.
  revert order im. induction all_text as [| text rest IH]; intros order im.
  - reflexivity.
  - cbn [annotate_from annotation_calls foldl].
    unfold print_text_to_image, cv2_putText. rewrite run_bind, run_ret. apply IH.
Qed.

Lemma annotation_calls_lookup (config : Config) (order : Z) (all_text : list string)
    (i : nat) :
  annotation_calls config order all_text !! i
  = (fun text => print_text_args config text (order + Z.of_nat i)) <$> all_text !! i.
Proof.
  revert order i. induction all_text as [| text rest IH]; intros order [| i]; cbn.
  - reflexivity.
  - reflexivity.
  - rewrite Z.add_0_r. reflexivity.
  - rewrite IH. replace (order + 1 + Z.of_nat i) with (order + Z.pos (Pos.of_succ_nat i)) by lia.
    reflexivity.
Qed.

(** C8 (as the script has it): the annotation loop burns the recorded
    descriptions in the order they were produced; the description at
    1-based position [order] is drawn as ["{order}. {text}"] with its
    origin at [(10, 50 * order)].  The vertical offset is proportional to
    the step index only; [size_factor] enters the font scale,
    [1.25 * size_factor], and not the position. *)
Theorem annotation_positions (E : Extern) (config : Config) (im : image)
    (all_text : list string) (w : World) :
  annotate_from E config 1 (Some im) all_text w
  = (Ok (Some (foldl (drawn E) im (annotation_calls config 1 all_text))), w) /\
  length (annotation_calls config 1 all_text) = length all_text /\
  (forall i text,
     all_text !! i = Some text ->
     exists args,
       annotation_calls config 1 all_text !! i = Some args /\
       pt_text args = pretty (Z.of_nat i + 1) +:+ ". " +:+ text /\
       pt_org args = (10, 50 * (Z.of_nat i + 1)) /\
       pt_fontScale args = fmul one_and_quarter (size_factor config)).
Proof.
  split; [apply run_annotate_from |]. split.
  - generalize 1. induction all_text as [| text rest IH]; intros order; cbn.
    + reflexivity.
    + rewrite IH. reflexivity.
  - intros i text Hi. rewrite annotation_calls_lookup, Hi. cbn [fmap option_fmap option_map].
    eexists. split; [reflexivity |]. cbn [print_text_args pt_text pt_org pt_fontScale].
    replace (1 + Z.of_nat i) with (Z.of_nat i + 1) by lia.
    replace ((Z.of_nat i + 1) * 50) with (50 * (Z.of_nat i + 1)) by lia.
    repeat split.
Qed.

(** Against C8 as stated: doubling [size_factor] from 0.5 to 1.0 leaves
    the first line at the
    vertical offset 50: the offset is not proportional to [size_factor]. *)
Lemma annotation_offset_ignores_size_factor :
  let one := S754_finite false 4503599627370496 (-52) in
  let small := Demo.configure ["blur"] "average" "uniform" "jpeg" "nearest" half true false in
  let large := Demo.configure ["blur"] "average" "uniform" "jpeg" "nearest" one true false in
  fadd (size_factor small) (size_factor small) = size_factor large /\
  (pt_org (print_text_args small "blur average ksize=3" 1)).2 = 50 /\
  (pt_org (print_text_args large "blur average ksize=3" 1)).2 = 50 /\
  pt_fontScale (print_text_args small "blur average ksize=3" 1)
  <> pt_fontScale (print_text_args large "blur average ksize=3" 1).
Proof. vm_compute. repeat split; discriminate. Qed.

(** ** Algorithm names without an implementation *)

(** C7 (as the script has it): an algorithm name that the operator does
    not implement is not rejected by Blur, Noise or Compression: each
    returns its input image untouched with an empty description, and the
    pipeline goes on.  Only Scale stops, when the step runs, on the
    [KeyError] of its interpolation lookup: for the selected algorithm,
    for the first sub-algorithm of [down_up], and, once the first resize
    went through, for its second sub-algorithm. *)
Theorem unimplemented_algorithm (E : Extern) (config : Config) (image : pyimage)
    (w w1 : World) (algorithm : string) :
  (choose_algorithm (blur_randomize config) (blur_algorithms config) w
     = (Ok algorithm, w1) ->
   algorithm ∉ ["average"; "gaussian"; "isotropic"; "anisotropic"] ->
   apply_blur E config image w = (Ok (image, ""), w1)) /\
  (choose_algorithm (noise_randomize config) (noise_algorithms config) w
     = (Ok algorithm, w1) ->
   algorithm ∉ ["uniform"; "gaussian"; "color"; "gray"] ->
   apply_noise config image w = (Ok (image, ""), w1)) /\
  (choose_algorithm (compression_randomize config) (compression_algorithms config) w
     = (Ok algorithm, w1) ->
   algorithm ∉ ["jpeg"; "webp"; "h264"; "hevc"; "mpeg"; "mpeg2"] ->
   apply_compression E config image w = (Ok (image, ""), w1)) /\
  (choose_algorithm (scale_randomize config) (scale_algorithms config) w
     = (Ok algorithm, w1) ->
   algorithm ∉ ["bicubic"; "bilinear"; "box"; "nearest"; "lanczos"; "down_up"] ->
   forall im new_h new_w,
     image = Some im ->
     trunc_scaled (height im) (size_factor config) = Some new_h ->
     trunc_scaled (width im) (size_factor config) = Some new_w ->
     apply_scale E config image w = (Raise (KeyError algorithm), w1)) /\
  (choose_algorithm (scale_randomize config) (scale_algorithms config) w
     = (Ok "down_up", w1) ->
   algorithm ∉ ["bicubic"; "bilinear"; "box"; "nearest"; "lanczos"] ->
   forall im new_h new_w algorithm2 scale_factor mid_h mid_w w2 w3,
     image = Some im ->
     trunc_scaled (height im) (size_factor config) = Some new_h ->
     trunc_scaled (width im) (size_factor config) = Some new_w ->
     down_up_pair config w1 = (Ok (algorithm, algorithm2), w2) ->
     np_random_uniform (scale_range config) w2 = (Ok scale_factor, w3) ->
     trunc_scaled (width im) scale_factor = Some mid_w ->
     trunc_scaled (height im) scale_factor = Some mid_h ->
     apply_scale E config image w = (Raise (KeyError algorithm), w3)) /\
  (choose_algorithm (scale_randomize config) (scale_algorithms config) w
     = (Ok "down_up", w1) ->
   algorithm ∉ ["bicubic"; "bilinear"; "box"; "nearest"; "lanczos"] ->
   forall im new_h new_w algorithm1 interp1 scale_factor mid_h mid_w w2 w3,
     image = Some im ->
     trunc_scaled (height im) (size_factor config) = Some new_h ->
     trunc_scaled (width im) (size_factor config) = Some new_w ->
     down_up_pair config w1 = (Ok (algorithm1, algorithm), w2) ->
     np_random_uniform (scale_range config) w2 = (Ok scale_factor, w3) ->
     trunc_scaled (width im) scale_factor = Some mid_w ->
     trunc_scaled (height im) scale_factor = Some mid_h ->
     interpolation_map !! algorithm1 = Some interp1 ->
     0 < height im -> 0 < width im ->
     0 < mid_w <= INT_MAX -> 0 < mid_h <= INT_MAX ->
     apply_scale E config image w = (Raise (KeyError algorithm), w3)).
Proof.
  repeat split; intros Halg Hname; rewrite !elem_of_cons, elem_of_nil in Hname.
  - unfold apply_blur. erewrite run_bind_ok by exact Halg.
    destruct (String.eqb_spec algorithm "average"); [tauto |].
    destruct (String.eqb_spec algorithm "gaussian"); [tauto |].
    destruct (String.eqb_spec algorithm "isotropic"); [tauto |].
    destruct (String.eqb_spec algorithm "anisotropic"); [tauto |].
    reflexivity.
  - unfold apply_noise. erewrite run_bind_ok by exact Halg.
    destruct (String.eqb_spec algorithm "uniform"); [tauto |].
    destruct (String.eqb_spec algorithm "gaussian"); [tauto |].
    destruct (String.eqb_spec algorithm "color"); [tauto |].
    destruct (String.eqb_spec algorithm "gray"); [tauto |].
    reflexivity.
  - unfold apply_compression. erewrite run_bind_ok by exact Halg.
    destruct (String.eqb_spec algorithm "jpeg"); [tauto |].
    destruct (String.eqb_spec algorithm "webp"); [tauto |].
    destruct (String.eqb_spec algorithm "h264"); [tauto |].
    destruct (String.eqb_spec algorithm "hevc"); [tauto |].
    destruct (String.eqb_spec algorithm "mpeg"); [tauto |].
    destruct (String.eqb_spec algorithm "mpeg2"); [tauto |].
    reflexivity.
  - intros im new_h new_w -> Hnh Hnw.
    unfold apply_scale. cbn [get_shape]. rewrite run_bind, run_ret.
    unfold shape. cbv beta iota.
    erewrite run_bind_ok by (apply scaled_ok; eauto).
    erewrite run_bind_ok by (apply scaled_ok; eauto).
    erewrite run_bind_ok by exact Halg.
    destruct (String.eqb_spec algorithm "down_up"); [tauto |].
    unfold interpolation_of.
    replace (interpolation_map !! algorithm) with (@None interpolation); [reflexivity |].
    symmetry. unfold interpolation_map. cbn [list_to_map foldr uncurry fst snd].
    rewrite !lookup_insert_ne by (intros <-; tauto). apply lookup_empty.
  - intros im new_h new_w algorithm2 scale_factor mid_h mid_w w2 w3
           -> Hnh Hnw Hpair Hfactor Hmw Hmh.
    unfold apply_scale. cbn [get_shape]. rewrite run_bind, run_ret.
    unfold shape. cbv beta iota.
    erewrite run_bind_ok by (apply scaled_ok; eauto).
    erewrite run_bind_ok by (apply scaled_ok; eauto).
    erewrite run_bind_ok by exact Halg.
    change (String.eqb "down_up" "down_up") with true. cbv iota.
    erewrite run_bind_ok by exact Hpair. cbv beta iota.
    erewrite run_bind_ok by exact Hfactor.
    erewrite run_bind_ok by (apply scaled_ok; eauto).
    erewrite run_bind_ok by (apply scaled_ok; eauto).
    unfold interpolation_of.
    replace (interpolation_map !! algorithm) with (@None interpolation); [reflexivity |].
    symmetry. unfold interpolation_map. cbn [list_to_map foldr uncurry fst snd].
    rewrite !lookup_insert_ne by (intros <-; tauto). apply lookup_empty.
  - intros im new_h new_w algorithm1 interp1 scale_factor mid_h mid_w w2 w3
           -> Hnh Hnw Hpair Hfactor Hmw Hmh Hinterp1 Hh Hw Hdw Hdh.
    unfold apply_scale. cbn [get_shape]. rewrite run_bind, run_ret.
    unfold shape. cbv beta iota.
    erewrite run_bind_ok by (apply scaled_ok; eauto).
    erewrite run_bind_ok by (apply scaled_ok; eauto).
    erewrite run_bind_ok by exact Halg.
    change (String.eqb "down_up" "down_up") with true. cbv iota.
    erewrite run_bind_ok by exact Hpair. cbv beta iota.
    erewrite run_bind_ok by exact Hfactor.
    erewrite run_bind_ok by (apply scaled_ok; eauto).
    erewrite run_bind_ok by (apply scaled_ok; eauto).
    rewrite run_bind. unfold interpolation_of at 1. rewrite Hinterp1, run_ret.
    rewrite run_bind, run_cv2_resize by assumption.
    rewrite run_bind. unfold interpolation_of.
    replace (interpolation_map !! algorithm) with (@None interpolation); [reflexivity |].
    symmetry. unfold interpolation_map. cbn [list_to_map foldr uncurry fst snd].
    rewrite !lookup_insert_ne by (intros <-; tauto). apply lookup_empty.
Qed.

Lemma unimplemented_algorithm_witness :
  apply_blur (Demo.extern id)
    (Demo.configure ["blur"] "median" "uniform" "jpeg" "nearest" half false false)
    (Some Demo.picture) (Demo.world (fun _ => 0))
  = (Ok (Some Demo.picture, ""), Demo.world (fun _ => 0)).
Proof.
  apply (proj1 (unimplemented_algorithm (Demo.extern id)
           (Demo.configure ["blur"] "median" "uniform" "jpeg" "nearest" half false false)
           (Some Demo.picture) (Demo.world (fun _ => 0)) (Demo.world (fun _ => 0))
           "median") eq_refl).
  rewrite !elem_of_cons, elem_of_nil. intros [H | [H | [H | [H | []]]]]; discriminate H.
Defined.

(** Against C7 as stated: with [median] configured for blur,
    [process_image] raises nothing: the
    blur step does nothing and the untouched image is written. *)
Lemma unimplemented_blur_is_silent :
  let r := process_image (Demo.extern id)
             (Demo.configure ["blur"] "median" "uniform" "jpeg" "nearest" half false false)
             "in/a.png" (Demo.world (fun _ => 0)) in
  r.1 = Ok tt /\ written r.2 = [("out/a.png", Demo.picture)].
Proof. vm_compute. split; reflexivity. Qed.

(** ** An unreadable input *)

Lemma keeps_ret {A : Type} (a : A) : keeps_written (mret a : M A).
Proof. intros w. reflexivity. Qed.

Lemma keeps_raise {A : Type} (e : exn) : keeps_written (raise e : M A).
Proof. intros w. reflexivity. Qed.

Lemma keeps_bind {A B : Type} (m : M A) (f : A -> M B) :
  keeps_written m -> (forall a, keeps_written (f a)) -> keeps_written (m ≫= f).
Proof.
  intros Hm Hf w. rewrite run_bind. specialize (Hm w).
  destruct (m w) as [[a | e] w1]; cbn [snd] in *.
  - rewrite Hf. exact Hm.
  - exact Hm.
Qed.

Lemma keeps_try {A : Type} (body : M A) (handler : exn -> M A) :
  keeps_written body -> (forall e, keeps_written (handler e)) ->
  keeps_written (try_except_ValueError body handler).
Proof.
  intros Hb Hh w. unfold try_except_ValueError. specialize (Hb w).
  destruct (body w) as [[a | []] w1]; cbn [snd] in *; try exact Hb.
  rewrite Hh. exact Hb.
Qed.

Lemma keeps_draw : keeps_written draw.
Proof. intros w. reflexivity. Qed.

Lemma keeps_logging_error (r : log_record) : keeps_written (logging_error r).
Proof. intros w. reflexivity. Qed.

Lemma keeps_os_makedirs (E : Extern) (path : string) :
  keeps_written (os_makedirs E path).
Proof.
  intros w. unfold os_makedirs.
  destruct (String.eqb path ""); [reflexivity |].
  destruct (makedirs_denied E path); reflexivity.
Qed.

(** Split a computation along its binds, branches and known steps. *)
Ltac keeps :=
  repeat first
    [ apply keeps_ret | apply keeps_raise | apply keeps_draw
    | apply keeps_logging_error | solve [auto]
    | apply keeps_bind; [| intros ?]
    | apply keeps_try; [| intros ?]
    | match goal with
      | |- keeps_written (if ?b then _ else _) => destruct b
      | |- keeps_written (match ?x with _ => _ end) => destruct x
      | |- keeps_written (let '_ := ?x in _) => destruct x
      end ].

Lemma keeps_randint (range : Z * Z) : keeps_written (randint range).
Proof. unfold randint, randbelow. keeps. Qed.

Lemma keeps_choose_algorithm (randomize : bool) (algorithms : list string) :
  keeps_written (choose_algorithm randomize algorithms).
Proof. unfold choose_algorithm, choice, first_item, randbelow. keeps. Qed.

Lemma keeps_random_bytes (n : nat) : keeps_written (random_bytes n).
Proof. induction n as [| n IH]; cbn [random_bytes]; keeps. Qed.

Lemma keeps_np_random_uniform_array (low high : Z) (n : nat) :
  keeps_written (np_random_uniform_array low high n).
Proof.
  assert (forall l wd, keeps_written (uniform_samples n l wd)).
  { intros l wd. induction n as [| n IH]; cbn [uniform_samples]; keeps. }
  unfold np_random_uniform_array, py_float. keeps.
Qed.

Lemma keeps_np_random_normal_array (loc scale : Z) (n : nat) :
  keeps_written (np_random_normal_array loc scale n).
Proof.
  assert (forall l s, keeps_written (normal_samples n l s)).
  { intros l s. induction n as [| n IH]; cbn [normal_samples]; unfold standard_normal; keeps. }
  unfold np_random_normal_array, py_float. keeps.
Qed.

Lemma keeps_scaled (n : Z) (factor : float) : keeps_written (scaled n factor).
Proof. unfold scaled, py_float, py_int. keeps. Qed.

Lemma keeps_ksize_of_sigma (sigma : Z) : keeps_written (ksize_of_sigma sigma).
Proof. unfold ksize_of_sigma, py_float, py_int. keeps. Qed.

Lemma keeps_shuffle_from {A : Type} (i : nat) (x : list A) :
  keeps_written (shuffle_from i x).
Proof. revert x. induction i as [| i IH]; intros x; cbn [shuffle_from]; unfold randbelow; keeps. Qed.

Lemma keeps_apply_blur (E : Extern) (config : Config) (image : pyimage) :
  keeps_written (apply_blur E config image).
Proof.
  pose proof keeps_randint. pose proof keeps_choose_algorithm. pose proof keeps_ksize_of_sigma.
  unfold apply_blur, gaussian_ksize, cv2_blur, cv2_GaussianBlur. keeps.
Qed.

Lemma keeps_apply_noise (config : Config) (image : pyimage) :
  keeps_written (apply_noise config image).
Proof.
  pose proof keeps_randint. pose proof keeps_choose_algorithm. pose proof keeps_random_bytes.
  pose proof keeps_np_random_uniform_array. pose proof keeps_np_random_normal_array.
  unfold apply_noise, get_shape. keeps.
Qed.

Lemma keeps_apply_compression (E : Extern) (config : Config) (image : pyimage) :
  keeps_written (apply_compression E config image).
Proof.
  pose proof keeps_randint. pose proof keeps_choose_algorithm.
  unfold apply_compression, compress_video, output_args_of, config_get, reshape,
    first_item, cv2_imencode, cv2_imdecode_copy.
  keeps.
Qed.

Lemma keeps_apply_scale (E : Extern) (config : Config) (image : pyimage) :
  keeps_written (apply_scale E config image).
Proof.
  pose proof keeps_choose_algorithm. pose proof keeps_scaled.
  unfold apply_scale, get_shape, down_up_pair, choice, randbelow, first_item, last_item,
    np_random_uniform, interpolation_of, cv2_resize, py_truediv.
  keeps.
Qed.

Lemma keeps_degrade_step (E : Extern) (config : Config) (st : loop_state)
    (degradation : string) :
  keeps_written (degrade_step E config st degradation).
Proof.
  pose proof (keeps_apply_blur E config). pose proof (keeps_apply_noise config).
  pose proof (keeps_apply_compression E config). pose proof (keeps_apply_scale E config).
  unfold degrade_step. keeps.
Qed.

Lemma keeps_degrade_loop (E : Extern) (config : Config) (order : list string)
    (st : loop_state) :
  keeps_written (degrade_loop E config st order).
Proof.
  pose proof (keeps_degrade_step E config).
  revert st. induction order as [| d rest IH]; intros st; cbn [degrade_loop]; keeps.
Qed.

Lemma keeps_degradation_order (config : Config) : keeps_written (degradation_order config).
Proof.
  pose proof (@keeps_shuffle_from string).
  unfold degradation_order, shuffle. keeps.
Qed.

(** On an absent image an operator either raises or hands [None] back. *)
Lemma apply_blur_None (E : Extern) (config : Config) (w w' : World)
    (img : pyimage) (text : string) :
  apply_blur E config None w = (Ok (img, text), w') -> img = None.
Proof.
  unfold apply_blur, cv2_blur, cv2_GaussianBlur. intros H.
  bind_inv H as algorithm Halg.
  repeat match type of H with
         | (if ?b then _ else _) _ = _ => destruct b
         end.
  - bind_inv H as ksize Hk. bind_inv H as out Hout. discriminate.
  - bind_inv H as ksize Hk. bind_inv H as out Hout. discriminate.
  - bind_inv H as sigma Hs. bind_inv H as ksize Hk. bind_inv H as out Hout. discriminate.
  - bind_inv H as sigma_x Hsx. bind_inv H as sigma_y Hsy.
    bind_inv H as ksize_x Hkx. bind_inv H as ksize_y Hky.
    bind_inv H as out Hout. discriminate.
  - apply ret_ok_inv in H as [[= -> _] _]. reflexivity.
Qed.

Lemma apply_noise_None (config : Config) (w w' : World) (img : pyimage) (text : string) :
  apply_noise config None w = (Ok (img, text), w') -> img = None.
Proof.
  unfold apply_noise, get_shape. intros H.
  bind_inv H as algorithm Halg.
  repeat match type of H with
         | (if ?b then _ else _) _ = _ => destruct b
         end.
  - bind_inv H as intensity Hi. bind_inv H as shp Hshp. discriminate.
  - bind_inv H as intensity Hi. bind_inv H as shp Hshp. discriminate.
  - bind_inv H as s0 Hs0. bind_inv H as s1 Hs1. bind_inv H as s2 Hs2. discriminate.
  - bind_inv H as shp Hshp. discriminate.
  - apply ret_ok_inv in H as [[= -> _] _]. reflexivity.
Qed.

Lemma apply_compression_None (E : Extern) (config : Config) (w w' : World)
    (img : pyimage) (text : string) :
  apply_compression E config None w = (Ok (img, text), w') -> img = None.
Proof.
  unfold apply_compression, cv2_imencode, compress_video. intros H.
  bind_inv H as algorithm Halg.
  repeat match type of H with
         | (if ?b then _ else _) _ = _ => destruct b
         end.
  - bind_inv H as quality Hq. bind_inv H as encimg Henc. discriminate.
  - bind_inv H as quality Hq. bind_inv H as encimg Henc. discriminate.
  - discriminate.
  - apply ret_ok_inv in H as [[= -> _] _]. reflexivity.
Qed.

Lemma apply_scale_None (E : Extern) (config : Config) (w : World) :
  apply_scale E config None w = (Raise (AttributeError "shape"), w).
Proof. reflexivity. Qed.

Lemma degrade_step_None (E : Extern) (config : Config) (st st' : loop_state)
    (degradation : string) (w w' : World) :
  ls_image st = None ->
  degrade_step E config st degradation w = (Ok st', w') ->
  ls_image st' = None.
Proof.
  intros Hnone. unfold degrade_step. rewrite Hnone. intros H.
  bind_inv H as r Hr. destruct r as [image [t |]]; [| discriminate].
  apply ret_ok_inv in H as [-> _]. cbn [ls_image].
  repeat match type of Hr with
         | (if ?b then _ else _) _ = _ => destruct b
         end.
  - bind_inv Hr as r Hop. destruct r as [i t']. apply ret_ok_inv in Hr as [[= -> _] _].
    exact (apply_blur_None _ _ _ _ _ _ Hop).
  - bind_inv Hr as r Hop. destruct r as [i t']. apply ret_ok_inv in Hr as [[= -> _] _].
    exact (apply_noise_None _ _ _ _ _ Hop).
  - bind_inv Hr as r Hop. destruct r as [i t']. apply ret_ok_inv in Hr as [[= -> _] _].
    exact (apply_compression_None _ _ _ _ _ _ Hop).
  - bind_inv Hr as r Hop. rewrite apply_scale_None in Hop. discriminate.
  - apply ret_ok_inv in Hr as [[= -> _] _]. reflexivity.
Qed.

Lemma degrade_loop_None (E : Extern) (config : Config) (order : list string)
    (st st' : loop_state) (w w' : World) :
  ls_image st = None ->
  degrade_loop E config st order w = (Ok st', w') ->
  ls_image st' = None.
Proof.
  revert st w. induction order as [| d rest IH]; intros st w Hnone; cbn [degrade_loop].
  - intros H. apply ret_ok_inv in H as [-> _]. exact Hnone.
  - intros H. bind_inv H as st1 Hstep.
    apply (IH st1 w0); [| exact H].
    exact (degrade_step_None _ _ _ _ _ _ _ Hnone Hstep).
Qed.

Lemma annotate_from_None (E : Extern) (config : Config) (order : Z)
    (all_text : list string) (w : World) :
  annotate_from E config order None all_text w = (Ok None, w).
Proof.
  revert order. induction all_text as [| text rest IH]; intros order.
  - reflexivity.
  - cbn [annotate_from]. unfold print_text_to_image, cv2_putText.
    rewrite run_bind, run_ret. apply IH.
Qed.

(** Making the output directory and writing an absent image raises, and
    writes nothing. *)
Lemma write_None (E : Extern) (dir path : string) (w : World) :
  exists e w',
    (os_makedirs E dir;; _ ← cv2_imwrite E path None; mret tt) w = (Raise e, w') /\
    written w' = written w.
Proof.
  rewrite run_bind. unfold os_makedirs.
  destruct (String.eqb dir ""); [eexists _, _; split; reflexivity |].
  destruct (makedirs_denied E dir); eexists _, _; split; reflexivity.
Qed.

(** C6 (as the script has it): for an unreadable input the load step
    raises nothing: [cv2.imread] yields [None] and [process_image] goes on
    with the absent pixel buffer.  Processing of that image then fails
    later, in the first operator that touches the buffer or in the final
    [cv2.imwrite], and no image is written. *)
Theorem unreadable_image (E : Extern) (config : Config) (image_path : string)
    (w : World) :
  disk w image_path = None ->
  cv2_imread image_path w = (Ok None, w) /\
  exists e w',
    process_image E config image_path w = (Raise e, w') /\
    written w' = written w.
Proof.
  intros Hdisk. split; [unfold cv2_imread; rewrite Hdisk; reflexivity |].
  unfold process_image. rewrite run_bind. unfold cv2_imread at 1. rewrite Hdisk.
  rewrite run_bind.
  pose proof (keeps_degradation_order config w) as Hw1.
  destruct (degradation_order config w) as [[order | e] w1]; cbn [snd] in Hw1;
    [| exists e, w1; split; [reflexivity | exact Hw1]].
  rewrite run_bind.
  pose proof (keeps_degrade_loop E config order (LoopState None None []) w1) as Hw2.
  destruct (degrade_loop E config (LoopState None None []) order w1)
    as [[st | e] w2] eqn:Hloop; cbn [snd] in Hw2;
    [| exists e, w2; split; [reflexivity | congruence]].
  apply degrade_loop_None in Hloop; [| reflexivity]. rewrite Hloop.
  destruct (write_None E (os_path_dirname E (output_path_of E config image_path))
              (output_path_of E config image_path) w2) as (e & w' & Hrun & Hw').
  exists e, w'.
  destruct (print_to_image config).
  - rewrite run_bind, annotate_from_None. split; [exact Hrun | congruence].
  - rewrite run_bind, run_ret. split; [exact Hrun | congruence].
Qed.

Lemma unreadable_image_witness :
  cv2_imread "in/missing.png" (Demo.world (fun _ => 0))
  = (Ok None, Demo.world (fun _ => 0)) /\
  exists e w',
    process_image (Demo.extern id) Demo.config "in/missing.png" (Demo.world (fun _ => 0))
    = (Raise e, w') /\
    written w' = written (Demo.world (fun _ => 0)).
Proof.
  apply (unreadable_image (Demo.extern id) Demo.config "in/missing.png"
           (Demo.world (fun _ => 0)) eq_refl).
Defined.

(** Against C6 as stated: with only [scale] configured, the run on a
    missing file passes the load
    step and stops on [image.shape] inside the scale operator; with a blur
    step that does nothing, it goes all the way to the output directory
    being made and stops in [cv2.imwrite]. *)
Lemma unreadable_image_passes_load :
  let w := Demo.world (fun _ => 0) in
  let only_scale :=
    Demo.configure ["scale"] "average" "uniform" "jpeg" "nearest" half false false in
  let idle_blur :=
    Demo.configure ["blur"] "median" "uniform" "jpeg" "nearest" half false false in
  disk w "in/missing.png" = None /\
  cv2_imread "in/missing.png" w = (Ok None, w) /\
  process_image (Demo.extern id) only_scale "in/missing.png" w
  = (Raise (AttributeError "shape"), w) /\
  (process_image (Demo.extern id) idle_blur "in/missing.png" w).1
  = Raise (Cv2Error "imwrite") /\
  dirs (process_image (Demo.extern id) idle_blur "in/missing.png" w).2 = ["out"].
Proof. vm_compute. repeat split. Qed.

(** [int(4 * sigma + 0.5)] is [4 * sigma] while binary64 holds the sum
    exactly. *)
Lemma ksize_of_sigma_exact (sigma : Z) (w : World) :
  0 <= sigma < 2 ^ 50 ->
  ksize_of_sigma sigma w = (Ok (8 * sigma + 1), w).
Proof.
  intros Hs. destruct (Z.eq_dec sigma 0) as [-> | Hpos]; [reflexivity |].
  assert (Hn : 0 < 4 * sigma < 2 ^ 52) by lia.
  destruct (of_int_exact (4 * sigma)) as (mx & Hof & Hmx); [lia |].
  destruct (fadd_half_exact (4 * sigma) mx Hn Hmx) as (mz & Hadd & Hmz).
  pose proof (log2_bounds _ 52 Hn) as HL.
  unfold ksize_of_sigma, py_float. rewrite Hof, run_bind, run_ret, Hadd.
  unfold py_int. rewrite run_bind, run_ret, run_ret. cbn [cond_Zopp].
  f_equal. f_equal.
  assert (Htrunc : trunc_mag mz (Z.log2 (4 * sigma) - 52) = 4 * sigma); [| lia].
  unfold trunc_mag. destruct (Z.log2 (4 * sigma) - 52) as [| q | q] eqn:He; try lia.
  rewrite Hmz. replace (Zpos q) with (52 - Z.log2 (4 * sigma)) by lia.
  set (L := Z.log2 (4 * sigma)) in *.
  replace (2 ^ (52 - L)) with (2 * 2 ^ (51 - L)).
  2:{ rewrite <- Z.pow_succ_r by lia. f_equal. lia. }
  assert (Hpow : 0 < 2 ^ (51 - L)) by (apply Z.pow_pos_nonneg; lia).
  rewrite Z.div_mul_cancel_r by lia.
  rewrite Z.mul_comm, Z.div_add_l by lia. change (1 / 2) with 0. lia.
Qed.

(** [int(4 * sigma + 0.5)] is [4 * sigma] also where [4 * sigma] has more
    than 53 bits, as long as binary64 holds it. *)
Lemma ksize_of_sigma_wide (x : positive) (j : Z) (sigma : Z) (w : World) :
  4 * sigma = Zpos x * 2 ^ j -> 2 ^ 52 <= Zpos x < 2 ^ 53 -> 0 <= j <= 900 ->
  (j = 0 -> Z.even (Zpos x) = true) ->
  ksize_of_sigma sigma w = (Ok (8 * sigma + 1), w).
Proof.
  intros Hn Hx Hj Heven.
  assert (Hlog : Z.log2 (Zpos x) = 52) by (apply Z.log2_unique; lia).
  unfold ksize_of_sigma, py_float. rewrite Hn, of_int_large_exact by lia.
  rewrite run_bind, run_ret, fadd_half_large by assumption.
  unfold py_int. rewrite run_bind, run_ret, run_ret. cbn [cond_Zopp].
  f_equal. f_equal.
  assert (Htrunc : trunc_mag x j = 4 * sigma); [| lia].
  rewrite Hn. unfold trunc_mag. destruct j as [| q | q]; lia.
Qed.

(** The kernel size derived from sigma is [8 * sigma + 1] up to
    [sigma = 2^53]. *)
Lemma ksize_of_sigma_formula (sigma : Z) (w : World) :
  0 <= sigma <= 2 ^ 53 ->
  ksize_of_sigma sigma w = (Ok (8 * sigma + 1), w).
Proof.
  intros Hs.
  destruct (Z.lt_ge_cases sigma (2 ^ 50)); [apply ksize_of_sigma_exact; lia |].
  destruct (Z.lt_ge_cases sigma (2 ^ 51)).
  { apply (ksize_of_sigma_wide (Z.to_pos (4 * sigma)) 0); rewrite ?Z2Pos.id by lia; try lia.
    intros _. rewrite Z.even_mul. reflexivity. }
  destruct (Z.lt_ge_cases sigma (2 ^ 52)).
  { apply (ksize_of_sigma_wide (Z.to_pos (2 * sigma)) 1); rewrite ?Z2Pos.id by lia; lia. }
  destruct (Z.lt_ge_cases sigma (2 ^ 53)).
  { apply (ksize_of_sigma_wide (Z.to_pos sigma) 2); rewrite ?Z2Pos.id by lia; lia. }
  assert (sigma = 2 ^ 53) as -> by lia. vm_compute. reflexivity.
Qed.

(** Deriving a kernel size has no effect. *)
Lemma ksize_of_sigma_pure (sigma : Z) (w w' : World) (k : Z) :
  ksize_of_sigma sigma w = (Ok k, w') -> w' = w.
Proof.
  unfold ksize_of_sigma, py_float, py_int. intros H.
  destruct (of_int (4 * sigma)) as [f |]; [| discriminate].
  rewrite run_bind, run_ret in H.
  destruct (fadd f half); try discriminate; rewrite run_bind, run_ret, run_ret in H;
    congruence.
Qed.

(** Rounding keeps the sign it is given. *)
Lemma binary_round_aux_not_negative (m e : Z) (l : location) :
  not_negative (binary_round_aux prec emax false m e l).
Proof.
  unfold binary_round_aux.
  destruct (shr_fexp prec emax m e l) as [mrs' e'].
  destruct (shr_fexp prec emax _ e' loc_Exact) as [mrs'' e''].
  destruct (shr_m mrs''); cbn; auto. destruct (_ <=? _); cbn; auto.
Qed.

(** So does rounding after alignment. *)
Lemma binary_round_not_negative (m : positive) (e : Z) :
  not_negative (binary_round prec emax false m e).
Proof.
  unfold binary_round. destruct (shl_align m e _) as [mz ez].
  apply binary_round_aux_not_negative.
Qed.

(** The float of an integer that is not negative is not negative. *)
Lemma of_int_not_negative (n : Z) (f : float) :
  0 <= n -> of_int n = Some f -> not_negative f.
Proof.
  intros Hn. unfold of_int. destruct n as [| p | p]; try lia; cbn [binary_normalize].
  - intros [= <-]. exact I.
  - pose proof (binary_round_not_negative p 0) as Hsign.
    destruct (binary_round prec emax false p 0); intros [= <-]; exact Hsign.
Qed.

(** Adding [0.5] keeps a float not negative. *)
Lemma fadd_half_not_negative (f : float) :
  not_negative f -> not_negative (fadd f half).
Proof.
  destruct f as [s | s | | s m e]; cbn; auto.
  intros ->. unfold fadd, half, SFadd. cbn [cond_Zopp].
  destruct (shl_align m e _) as [mz ez]. destruct (shl_align _ _ _) as [mh eh]. cbn [fst].
  change (Zpos mz + Zpos mh) with (Zpos (mz + mh)). cbn [binary_normalize].
  apply binary_round_not_negative.
Qed.

(** The integer part of a float that is not negative is not negative. *)
Lemma py_int_not_negative (what : string) (f : float) (w w' : World) (z : Z) :
  not_negative f -> py_int what f w = (Ok z, w') -> 0 <= z.
Proof.
  destruct f as [s | s | | s m e]; cbn; try discriminate.
  - intros _ [= <- _]. lia.
  - intros -> [= <- _]. cbn [cond_Zopp]. unfold trunc_mag.
    destruct e as [| q | q]; [lia | lia |].
    apply Z.div_pos; [lia | apply Z.pow_pos_nonneg; lia].
Qed.

(** Whatever the sample, a derived size is odd; it is positive when the
    sample is not negative. *)
Lemma ksize_of_sigma_odd (sigma : Z) (w w' : World) (k : Z) :
  ksize_of_sigma sigma w = (Ok k, w') ->
  Z.odd k = true /\ (0 <= sigma -> 1 <= k).
Proof.
  unfold ksize_of_sigma, py_float. intros H.
  bind_inv H as f Hf. bind_inv H as n Hn. apply ret_ok_inv in H as [-> _].
  split.
  - rewrite Z.add_comm, Z.odd_add_mul_2. reflexivity.
  - intros Hs. destruct (of_int (4 * sigma)) as [f' |] eqn:Hof; [| discriminate].
    apply ret_ok_inv in Hf as [-> _].
    apply of_int_not_negative in Hof; [| lia].
    apply fadd_half_not_negative in Hof.
    pose proof (py_int_not_negative _ _ _ _ _ Hof Hn). lia.
Qed.

(** For an integer sigma the formula is [8 * sigma + 1]. *)
Lemma kernel_size_formula_eq (sigma : Z) : kernel_size_formula sigma = 8 * sigma + 1.
Proof.
  unfold kernel_size_formula.
  replace (2 * (4 * sigma) + 1) with (1 + 4 * sigma * 2) by lia.
  rewrite Z.div_add by lia. change (1 / 2) with 0. lia.
Qed.

(** The [isotropic] branch of the operator: one draw, the size derived
    from it, then the filter with that size on both sides. *)
Lemma apply_blur_isotropic (E : Extern) (config : Config) (image : pyimage) (lo hi : Z)
    (w w1 : World) :
  choose_algorithm (blur_randomize config) (blur_algorithms config) w
    = (Ok "isotropic", w1) ->
  blur_range config = (lo, hi) ->
  lo <= hi ->
  let sigma := lo + tape w1 (cursor w1) mod (hi - lo + 1) in
  apply_blur E config image w
  = (ksize ← ksize_of_sigma sigma;
     out ← cv2_GaussianBlur E image (ksize, ksize) sigma sigma;
     mret (Some out,
           "isotropic ksize=" +:+ pretty ksize +:+ " sigma=" +:+ pretty sigma))
      (advance w1).
Proof.
  intros Halg Hrange Hle sigma. unfold apply_blur.
  erewrite run_bind_ok by exact Halg. cbn [String.eqb Ascii.eqb Bool.eqb].
  rewrite Hrange, run_bind, run_randint by exact Hle. reflexivity.
Qed.

(** The [anisotropic] branch: two draws, a size derived from each, then
    the filter with the two sizes. *)
Lemma apply_blur_anisotropic (E : Extern) (config : Config) (image : pyimage) (lo hi : Z)
    (w w1 : World) :
  choose_algorithm (blur_randomize config) (blur_algorithms config) w
    = (Ok "anisotropic", w1) ->
  blur_range config = (lo, hi) ->
  lo <= hi ->
  let sigma_x := lo + tape w1 (cursor w1) mod (hi - lo + 1) in
  let sigma_y := lo + tape w1 (S (cursor w1)) mod (hi - lo + 1) in
  apply_blur E config image w
  = (ksize_x ← ksize_of_sigma sigma_x;
     ksize_y ← ksize_of_sigma sigma_y;
     out ← cv2_GaussianBlur E image (ksize_x, ksize_y) sigma_x sigma_y;
     mret (Some out,
           "anisotropic sigma_x=" +:+ pretty sigma_x +:+ " sigma_y=" +:+ pretty sigma_y
           +:+ " ksize_x=" +:+ pretty ksize_x +:+ " ksize_y=" +:+ pretty ksize_y))
      (advance (advance w1)).
Proof.
  intros Halg Hrange Hle sigma_x sigma_y. unfold apply_blur.
  erewrite run_bind_ok by exact Halg. cbn [String.eqb Ascii.eqb Bool.eqb].
  rewrite Hrange, run_bind, run_randint by exact Hle.
  rewrite run_bind, run_randint by exact Hle. reflexivity.
Qed.

(** C5 (as the script has it): for every integer sampled from the blur
    range, the kernel sides the operator passes to [cv2.GaussianBlur] are
    odd: [k | 1] for [gaussian], and [2 * int(4 * sigma + 0.5) + 1] for
    [isotropic] and [anisotropic], whenever that size is derived; they are
    at least 1 when the range is not negative.  For a range within
    [0, 2^53] the sizes of [isotropic] and [anisotropic] are derived for
    every sample and equal [2 * floor(4 * sigma + 0.5) + 1]. *)
Theorem blur_kernel_sizes (E : Extern) (config : Config) (image : pyimage) (lo hi : Z)
    (w w1 : World) (algorithm : string) :
  choose_algorithm (blur_randomize config) (blur_algorithms config) w
    = (Ok algorithm, w1) ->
  blur_range config = (lo, hi) ->
  lo <= hi ->
  let w2 := advance w1 in
  let w3 := advance w2 in
  let sigma := lo + tape w1 (cursor w1) mod (hi - lo + 1) in
  let sigma_y := lo + tape w1 (S (cursor w1)) mod (hi - lo + 1) in
  (lo <= sigma <= hi /\ lo <= sigma_y <= hi /\
   randint (blur_range config) w1 = (Ok sigma, w2) /\
   randint (blur_range config) w2 = (Ok sigma_y, w3)) /\
  (algorithm = "gaussian" ->
   Z.odd (Z.lor sigma 1) = true /\ (0 <= lo -> 1 <= Z.lor sigma 1) /\
   apply_blur E config image w
   = (out ← cv2_GaussianBlur E image (Z.lor sigma 1, Z.lor sigma 1) 0 0;
      mret (Some out, "gaussian ksize=" +:+ pretty (Z.lor sigma 1))) w2) /\
  (algorithm = "isotropic" ->
   (forall ksize,
      ksize_of_sigma sigma w2 = (Ok ksize, w2) ->
      Z.odd ksize = true /\ (0 <= lo -> 1 <= ksize) /\
      apply_blur E config image w
      = (out ← cv2_GaussianBlur E image (ksize, ksize) sigma sigma;
         mret (Some out,
               "isotropic ksize=" +:+ pretty ksize +:+ " sigma=" +:+ pretty sigma)) w2) /\
   (0 <= lo -> hi <= 2 ^ 53 ->
    ksize_of_sigma sigma w2 = (Ok (kernel_size_formula sigma), w2))) /\
  (algorithm = "anisotropic" ->
   (forall ksize_x ksize_y,
      ksize_of_sigma sigma w3 = (Ok ksize_x, w3) ->
      ksize_of_sigma sigma_y w3 = (Ok ksize_y, w3) ->
      Z.odd ksize_x = true /\ Z.odd ksize_y = true /\
      (0 <= lo -> 1 <= ksize_x /\ 1 <= ksize_y) /\
      apply_blur E config image w
      = (out ← cv2_GaussianBlur E image (ksize_x, ksize_y) sigma sigma_y;
         mret (Some out,
               "anisotropic sigma_x=" +:+ pretty sigma +:+ " sigma_y=" +:+ pretty sigma_y
               +:+ " ksize_x=" +:+ pretty ksize_x +:+ " ksize_y=" +:+ pretty ksize_y))
          w3) /\
   (0 <= lo -> hi <= 2 ^ 53 ->
    ksize_of_sigma sigma w3 = (Ok (kernel_size_formula sigma), w3) /\
    ksize_of_sigma sigma_y w3 = (Ok (kernel_size_formula sigma_y), w3))).
Proof.
  intros Halg Hrange Hle w2 w3 sigma sigma_y.
  pose proof (Z.mod_pos_bound (tape w1 (cursor w1)) (hi - lo + 1)) as Hx.
  pose proof (Z.mod_pos_bound (tape w1 (S (cursor w1))) (hi - lo + 1)) as Hy.
  assert (Hsx : lo <= sigma <= hi) by (unfold sigma; lia).
  assert (Hsy : lo <= sigma_y <= hi) by (unfold sigma_y; lia).
  split; [| split; [| split]].
  - rewrite Hrange. repeat split; try lia; apply run_randint; exact Hle.
  - intros ->. split; [apply lor_1_odd |]. split.
    + intros Hlo. rewrite lor_1. destruct (Z.odd sigma) eqn:Hodd; [| lia].
      assert (sigma <> 0) by (intros Hz; rewrite Hz in Hodd; discriminate). lia.
    + apply (apply_blur_gaussian E config image lo hi w w1 Halg Hrange Hle).
  - intros ->. split.
    + intros ksize Hk.
      destruct (ksize_of_sigma_odd sigma w2 w2 ksize Hk) as [Hodd Hpos].
      split; [exact Hodd |]. split; [intros Hlo; apply Hpos; lia |].
      rewrite (apply_blur_isotropic E config image lo hi w w1 Halg Hrange Hle).
      fold sigma w2. rewrite run_bind, Hk. reflexivity.
    + intros Hlo Hhi. rewrite kernel_size_formula_eq.
      apply ksize_of_sigma_formula. lia.
  - intros ->. split.
    + intros ksize_x ksize_y Hkx Hky.
      destruct (ksize_of_sigma_odd sigma w3 w3 ksize_x Hkx) as [Hoddx Hposx].
      destruct (ksize_of_sigma_odd sigma_y w3 w3 ksize_y Hky) as [Hoddy Hposy].
      split; [exact Hoddx |]. split; [exact Hoddy |].
      split; [intros Hlo; split; [apply Hposx | apply Hposy]; lia |].
      rewrite (apply_blur_anisotropic E config image lo hi w w1 Halg Hrange Hle).
      fold sigma sigma_y w2 w3. rewrite run_bind, Hkx, run_bind, Hky. reflexivity.
    + intros Hlo Hhi. rewrite !kernel_size_formula_eq.
      split; apply ksize_of_sigma_formula; lia.
Qed.

Lemma blur_kernel_sizes_witness :
  let w := Demo.world (fun _ => 2) in
  ksize_of_sigma (1 + 2 mod (6 - 1 + 1)) (advance w)
  = (Ok (kernel_size_formula (1 + 2 mod (6 - 1 + 1))), advance w).
Proof.
  apply (proj2 (proj1 (proj2 (proj2
           (blur_kernel_sizes (Demo.extern id)
              (Demo.configure [] "isotropic" "uniform" "jpeg" "nearest" half false false)
              (Some Demo.picture) 1 6 (Demo.world (fun _ => 2)) (Demo.world (fun _ => 2))
              "isotropic" eq_refl eq_refl ltac:(lia)))) eq_refl));
    lia.
Defined.

(** Against C5 as stated: with the blur range [(-3, -3)] the sample is -3:
    the gaussian size is [-3 | 1 = -3], the size derived from sigma is
    [2 * int(-11.5) + 1 = -21], both below 1, and the latter is not
    [2 * floor(-11.5) + 1 = -23]; [cv2.GaussianBlur] refuses the kernel.
    Above [2^53] binary64 rounds [4 * sigma]: for [sigma = 2^53 + 1] the
    size derived is [2^56 + 1], not [2 * floor(4 * sigma + 0.5) + 1], which
    is [2^56 + 9]. *)
Lemma negative_blur_range_kernel_sizes :
  let config := Demo.with_blur_range (-3, -3) Demo.config in
  let w := Demo.world (fun _ => 0) in
  randint (blur_range config) w = (Ok (-3), advance w) /\
  gaussian_ksize config w = (Ok (-3), advance w) /\
  ksize_of_sigma (-3) w = (Ok (-21), w) /\
  kernel_size_formula (-3) = -23 /\
  ~ (1 <= -3) /\ ~ (1 <= -21) /\
  apply_blur (Demo.extern id) config (Some Demo.picture) w
  = (Raise (Cv2Error "GaussianBlur"), advance w) /\
  ksize_of_sigma (2 ^ 53 + 1) w = (Ok (2 ^ 56 + 1), w) /\
  kernel_size_formula (2 ^ 53 + 1) = 2 ^ 56 + 9.
Proof. vm_compute. repeat split; intros H; apply H; reflexivity. Qed.

(** ** Runs of the whole script *)

(** A 64 x 64 image of one colour, scaled by 0.5 with [nearest]: 32 x 32 of
    the same colour. *)
Example scale_solid_colour :
  apply_scale (Demo.extern id)
    (Demo.configure ["scale"] "average" "uniform" "jpeg" "nearest" half false false)
    (Some (Image 64 64 (repeat 7 (64 * 64 * 3)))) (Demo.world (fun _ => 0))
  = (Ok (Some (Image 32 32 (repeat 7 (32 * 32 * 3))), ""), Demo.world (fun _ => 0)).
Proof. vm_compute. reflexivity. Qed.

(** The four degradations in the configured order on a readable file: one
    image is written, and the four descriptions were recorded in order. *)
Example process_image_run :
  let r := process_image (Demo.extern id) Demo.config "in/a.png"
             (Demo.world (fun n => Z.of_nat n * 7 + 3)) in
  r.1 = Ok tt /\
  map fst (written r.2) = ["out/a.png"] /\
  dirs r.2 = ["out"].
Proof. vm_compute. repeat split. Qed.

(** * Further properties of the script *)

(** ** Reading the configuration lists *)

Lemma py_split_nonempty (sep : Ascii.ascii) (s : string) : py_split sep s <> [].
Proof.
  destruct s as [| c rest]; cbn [py_split]; [discriminate |].
  destruct (Ascii.eqb c sep); [discriminate |].
  destruct (py_split sep rest); discriminate.
Qed.

Lemma py_join_cons (sep : Ascii.ascii) (piece : string) (rest : list string) :
  rest <> [] ->
  py_join sep (piece :: rest) = piece +:+ String sep (py_join sep rest).
Proof. destruct rest; [contradiction | reflexivity]. Qed.

(** Joining the pieces with the separator gives the string back. *)
Lemma py_join_split (sep : Ascii.ascii) (s : string) : py_join sep (py_split sep s) = s.
Proof.
  induction s as [| c rest IH]; cbn [py_split]; [reflexivity |].
  destruct (Ascii.eqb_spec c sep) as [-> | Hne].
  - rewrite py_join_cons by apply py_split_nonempty. cbn. rewrite IH. reflexivity.
  - pose proof (py_split_nonempty sep rest) as Hnil.
    destruct (py_split sep rest) as [| piece pieces]; [contradiction |].
    destruct pieces as [| piece' pieces].
    + cbn in *. rewrite IH. reflexivity.
    + rewrite py_join_cons by discriminate. rewrite py_join_cons in IH by discriminate.
      cbn. rewrite <- IH. reflexivity.
Qed.

(** No piece holds the separator. *)
Lemma py_split_pieces (sep : Ascii.ascii) (s : string) :
  Forall (fun piece => occurrences sep piece = 0%nat) (py_split sep s).
Proof.
  induction s as [| c rest IH]; cbn [py_split].
  - repeat constructor.
  - destruct (Ascii.eqb_spec c sep) as [-> | Hne].
    + constructor; [reflexivity | exact IH].
    + destruct (py_split sep rest) as [| piece pieces].
      * repeat constructor. cbn. destruct (Ascii.eqb_spec c sep); [contradiction | reflexivity].
      * inversion IH as [| ? ? Hpiece Hpieces]; subst. constructor; [| exact Hpieces].
        cbn. destruct (Ascii.eqb_spec c sep); [contradiction | exact Hpiece].
Qed.

(** There is one piece more than there are separators. *)
Lemma py_split_length (sep : Ascii.ascii) (s : string) :
  length (py_split sep s) = S (occurrences sep s).
Proof.
  induction s as [| c rest IH]; cbn [py_split occurrences]; [reflexivity |].
  destruct (Ascii.eqb_spec c sep) as [-> | Hne].
  - cbn. rewrite IH. reflexivity.
  - pose proof (py_split_nonempty sep rest) as Hnil.
    destruct (py_split sep rest) as [| piece pieces]; [contradiction |].
    cbn in *. exact IH.
Qed.

(** X1: a list read from the configuration is never empty: it has one name
    more than the raw value has commas (an empty value gives the one name
    [""]), no name holds a comma, and joining the names with commas gives
    the raw value back. *)
Theorem split_commas_round_trip (raw : string) :
  split_commas raw <> [] /\
  length (split_commas raw) = S (occurrences comma raw) /\
  Forall (fun name => occurrences comma name = 0%nat) (split_commas raw) /\
  py_join comma (split_commas raw) = raw.
Proof.
  unfold split_commas. split; [apply py_split_nonempty |].
  split; [apply py_split_length |].
  split; [apply py_split_pieces | apply py_join_split].
Qed.

Lemma py_split_comma_free (sep : Ascii.ascii) (piece : string) :
  occurrences sep piece = 0%nat -> py_split sep piece = [piece].
Proof.
  induction piece as [| c rest IH]; cbn [py_split occurrences]; [reflexivity |].
  destruct (Ascii.eqb c sep); [discriminate |]. intros Hrest.
  rewrite IH by exact Hrest. reflexivity.
Qed.

Lemma py_split_app (sep : Ascii.ascii) (piece s : string) :
  occurrences sep piece = 0%nat ->
  py_split sep (piece +:+ String sep s) = piece :: py_split sep s.
Proof.
  induction piece as [| c rest IH]; cbn [occurrences].
  - intros _. change ("" +:+ String sep s) with (String sep s).
    cbn [py_split]. rewrite Ascii.eqb_refl. reflexivity.
  - change (String c rest +:+ String sep s) with (String c (rest +:+ String sep s)).
    cbn [py_split]. destruct (Ascii.eqb c sep); [discriminate |]. intros Hrest.
    rewrite IH by exact Hrest. reflexivity.
Qed.

(** X2: names without a comma, written with commas between them, are read
    back as the same list. *)
Theorem split_commas_of_join (names : list string) :
  names <> [] ->
  Forall (fun name => occurrences comma name = 0%nat) names ->
  split_commas (py_join comma names) = names.
Proof.
  unfold split_commas. intros Hnil Hfree.
  induction Hfree as [| name rest Hname Hrest IH]; [contradiction |].
  destruct rest as [| name' rest].
  - apply py_split_comma_free, Hname.
  - rewrite py_join_cons by discriminate. rewrite py_split_app by exact Hname.
    rewrite IH by discriminate. reflexivity.
Qed.

Lemma split_commas_of_join_witness :
  split_commas (py_join comma ["blur"; "noise"; "compression"; "scale"])
  = ["blur"; "noise"; "compression"; "scale"].
Proof.
  apply (split_commas_of_join ["blur"; "noise"; "compression"; "scale"]).
  - discriminate.
  - repeat constructor.
Defined.

(** ** What the operators leave alone *)

Lemma preserves_ret {A B : Type} (view : World -> B) (a : A) :
  preserves view (mret a : M A).
Proof. intros w. reflexivity. Qed.

Lemma preserves_raise {A B : Type} (view : World -> B) (e : exn) :
  preserves view (raise e : M A).
Proof. intros w. reflexivity. Qed.

Lemma preserves_bind {A A' B : Type} (view : World -> B) (m : M A) (f : A -> M A') :
  preserves view m -> (forall a, preserves view (f a)) -> preserves view (m ≫= f).
Proof.
  intros Hm Hf w. rewrite run_bind. specialize (Hm w).
  destruct (m w) as [[a | e] w1]; cbn [snd] in *.
  - rewrite Hf. exact Hm.
  - exact Hm.
Qed.

Lemma preserves_try {A B : Type} (view : World -> B) (body : M A) (handler : exn -> M A) :
  preserves view body -> (forall e, preserves view (handler e)) ->
  preserves view (try_except_ValueError body handler).
Proof.
  intros Hb Hh w. unfold try_except_ValueError. specialize (Hb w).
  destruct (body w) as [[a | []] w1]; cbn [snd] in *; try exact Hb.
  rewrite Hh. exact Hb.
Qed.

Lemma preserves_draw {B : Type} (view : World -> B) :
  cursor_blind view -> preserves view draw.
Proof. intros Hc w. apply Hc. Qed.

Lemma preserves_logging_error {B : Type} (view : World -> B) (r : log_record) :
  log_blind view -> preserves view (logging_error r).
Proof. intros Hl w. apply Hl. Qed.

(** Split a computation along its binds and branches down to the draws
    and the log calls. *)
Ltac frame :=
  repeat first
    [ apply preserves_ret | apply preserves_raise
    | apply preserves_draw; assumption
    | apply preserves_logging_error; assumption
    | solve [auto]
    | apply preserves_bind; [| intros ?]
    | apply preserves_try; [| intros ?]
    | match goal with
      | |- preserves _ (if ?b then _ else _) => destruct b
      | |- preserves _ (match ?x with _ => _ end) => destruct x
      | |- preserves _ (let '_ := ?x in _) => destruct x
      end ].

Section Frame.

Context {B : Type} (view : World -> B).
Hypothesis Hcursor : cursor_blind view.

Lemma preserves_randint (range : Z * Z) : preserves view (randint range).
Proof. unfold randint, randbelow. frame. Qed.

Lemma preserves_choose_algorithm (randomize : bool) (algorithms : list string) :
  preserves view (choose_algorithm randomize algorithms).
Proof. unfold choose_algorithm, choice, first_item, randbelow. frame. Qed.

Lemma preserves_random_bytes (n : nat) : preserves view (random_bytes n).
Proof. induction n as [| n IH]; cbn [random_bytes]; frame. Qed.

Lemma preserves_np_random_uniform_array (low high : Z) (n : nat) :
  preserves view (np_random_uniform_array low high n).
Proof.
  assert (forall l wd, preserves view (uniform_samples n l wd)).
  { intros l wd. induction n as [| n IH]; cbn [uniform_samples]; frame. }
  unfold np_random_uniform_array, py_float. frame.
Qed.

Lemma preserves_np_random_normal_array (loc scale : Z) (n : nat) :
  preserves view (np_random_normal_array loc scale n).
Proof.
  assert (forall l s, preserves view (normal_samples n l s)).
  { intros l s. induction n as [| n IH]; cbn [normal_samples]; unfold standard_normal; frame. }
  unfold np_random_normal_array, py_float. frame.
Qed.

Lemma preserves_scaled (n : Z) (factor : float) : preserves view (scaled n factor).
Proof. unfold scaled, py_float, py_int. frame. Qed.

Lemma preserves_ksize_of_sigma (sigma : Z) : preserves view (ksize_of_sigma sigma).
Proof. unfold ksize_of_sigma, py_float, py_int. frame. Qed.

Lemma preserves_shuffle_from {A : Type} (i : nat) (x : list A) :
  preserves view (shuffle_from i x).
Proof.
  revert x. induction i as [| i IH]; intros x; cbn [shuffle_from]; unfold randbelow; frame.
Qed.

Lemma preserves_degradation_order (config : Config) :
  preserves view (degradation_order config).
Proof.
  pose proof (@preserves_shuffle_from string).
  unfold degradation_order, shuffle. frame.
Qed.

Lemma preserves_apply_blur (E : Extern) (config : Config) (image : pyimage) :
  preserves view (apply_blur E config image).
Proof.
  pose proof preserves_randint. pose proof preserves_choose_algorithm.
  pose proof preserves_ksize_of_sigma.
  unfold apply_blur, gaussian_ksize, cv2_blur, cv2_GaussianBlur. frame.
Qed.

Lemma preserves_apply_noise (config : Config) (image : pyimage) :
  preserves view (apply_noise config image).
Proof.
  pose proof preserves_randint. pose proof preserves_choose_algorithm.
  pose proof preserves_random_bytes.
  pose proof preserves_np_random_uniform_array. pose proof preserves_np_random_normal_array.
  unfold apply_noise, get_shape. frame.
Qed.

Lemma preserves_apply_scale (E : Extern) (config : Config) (image : pyimage) :
  preserves view (apply_scale E config image).
Proof.
  pose proof preserves_choose_algorithm. pose proof preserves_scaled.
  unfold apply_scale, get_shape, down_up_pair, choice, randbelow, first_item, last_item,
    np_random_uniform, interpolation_of, cv2_resize, py_truediv.
  frame.
Qed.

Lemma preserves_annotate_from (E : Extern) (config : Config) (order : Z)
    (image : pyimage) (all_text : list string) :
  preserves view (annotate_from E config order image all_text).
Proof.
  revert order image. induction all_text as [| text rest IH]; intros order image;
    cbn [annotate_from]; unfold print_text_to_image, cv2_putText; frame.
Qed.

Hypothesis Hlog : log_blind view.

Lemma preserves_apply_compression (E : Extern) (config : Config) (image : pyimage) :
  preserves view (apply_compression E config image).
Proof.
  pose proof preserves_randint. pose proof preserves_choose_algorithm.
  unfold apply_compression, compress_video, output_args_of, config_get, reshape,
    first_item, cv2_imencode, cv2_imdecode_copy.
  frame.
Qed.

Lemma preserves_degrade_step (E : Extern) (config : Config) (st : loop_state)
    (degradation : string) :
  preserves view (degrade_step E config st degradation).
Proof.
  pose proof (preserves_apply_blur E config). pose proof (preserves_apply_noise config).
  pose proof (preserves_apply_compression E config).
  pose proof (preserves_apply_scale E config).
  unfold degrade_step. frame.
Qed.

Lemma preserves_degrade_loop (E : Extern) (config : Config) (order : list string)
    (st : loop_state) :
  preserves view (degrade_loop E config st order).
Proof.
  pose proof (preserves_degrade_step E config).
  revert st. induction order as [| d rest IH]; intros st; cbn [degrade_loop]; frame.
Qed.

End Frame.

Lemma file_system_cursor_blind : cursor_blind file_system.
Proof. intros w c. reflexivity. Qed.

Lemma file_system_log_blind : log_blind file_system.
Proof. intros w l. reflexivity. Qed.

Lemma logged_cursor_blind : cursor_blind logged.
Proof. intros w c. reflexivity. Qed.

(** X3: the degradation loop has no effect on the files: whatever it
    returns or raises, for every order and every loop state, the
    directories, the written images, the readable files and the generator's
    sequence are what they were.  The annotation loop changes nothing in
    the world at all and never raises. *)
Theorem loops_leave_files_alone (E : Extern) (config : Config) (order : list string)
    (st : loop_state) (first : Z) (image : pyimage) (all_text : list string) (w : World) :
  file_system (degrade_loop E config st order w).2 = file_system w /\
  exists annotated, annotate_from E config first image all_text w = (Ok annotated, w).
Proof.
  split.
  - apply (preserves_degrade_loop file_system file_system_cursor_blind
             file_system_log_blind).
  - destruct image as [im |].
    + rewrite run_annotate_from. eexists. reflexivity.
    + rewrite annotate_from_None. eexists. reflexivity.
Qed.

(** ** What one call of [process_image] does to the files *)

(** The annotation step of [process_image]: drawn or not, it returns, keeps
    the world, and keeps an absent image absent. *)
Lemma annotation_step (E : Extern) (config : Config) (st : loop_state) (w : World) :
  exists img,
    (if print_to_image config
     then annotate_from E config 1 (ls_image st) (ls_all_text st)
     else mret (ls_image st)) w = (Ok img, w) /\
    (ls_image st = None <-> img = None).
Proof.
  destruct (print_to_image config).
  - destruct (ls_image st) as [im |].
    + rewrite run_annotate_from. eexists. split; [reflexivity |]. split; discriminate.
    + rewrite annotate_from_None. eexists. split; [reflexivity |]. split; reflexivity.
  - rewrite run_ret. eexists. split; [reflexivity |]. split; auto.
Qed.

(** What a call of [process_image] can have done when it ends. *)
Lemma process_image_outcome (E : Extern) (config : Config) (image_path : string)
    (w : World) :
  let r := process_image E config image_path w in
  let output_path := output_path_of E config image_path in
  let dir := os_path_dirname E output_path in
  tape r.2 = tape w /\
  match r.1 with
  | Ok _ =>
      is_Some (disk w image_path) /\
      dir <> "" /\ makedirs_denied E dir = false /\
      imwrite_has_writer E output_path = true /\
      dirs r.2 = dir :: dirs w /\
      if imwrite_can_write E output_path
      then exists img,
             written r.2 = (output_path, img) :: written w /\
             disk r.2 = disk_after_write E output_path img (disk w)
      else written r.2 = written w /\ disk r.2 = disk w
  | Raise e =>
      written r.2 = written w /\ disk r.2 = disk w /\
      (dirs r.2 = dirs w \/ (e = Cv2Error "imwrite" /\ dirs r.2 = dir :: dirs w))
  end.
Proof.
  intros r output_path dir. subst output_path dir.
  assert (Hr : r = process_image E config image_path w) by reflexivity. clearbody r.
  unfold process_image in Hr. rewrite run_bind in Hr.
  unfold cv2_imread at 1 in Hr. cbv beta iota in Hr. rewrite run_bind in Hr.
  pose proof (preserves_degradation_order file_system file_system_cursor_blind config w)
    as H1.
  destruct (degradation_order config w) as [[order | e] w1]; cbn [snd] in H1;
    unfold file_system in H1; injection H1 as Htape1 Hdisk1 Hdirs1 Hwritten1;
    [| subst r; cbn [fst snd]; auto].
  rewrite run_bind in Hr.
  pose proof (preserves_degrade_loop file_system file_system_cursor_blind
                file_system_log_blind E config order
                (LoopState (disk w image_path) None []) w1) as H2.
  destruct (degrade_loop E config (LoopState (disk w image_path) None []) order w1)
    as [[st | e] w2] eqn:Hloop; cbn [snd] in H2;
    unfold file_system in H2; injection H2 as Htape2 Hdisk2 Hdirs2 Hwritten2;
    [| subst r; cbn [fst snd]; split; [congruence |]; split; [congruence |];
       split; [congruence | left; congruence]].
  rewrite run_bind in Hr.
  destruct (annotation_step E config st w2) as (img & Hann & Himg).
  rewrite Hann in Hr. cbv zeta in Hr. rewrite run_bind in Hr. unfold os_makedirs at 1 in Hr.
  set (path := output_path_of E config image_path) in *.
  destruct (String.eqb_spec (os_path_dirname E path) "") as [Hempty | Hdir].
  { subst r. cbn [raise fst snd]. repeat split; try congruence. left. congruence. }
  destruct (makedirs_denied E (os_path_dirname E path)) eqn:Hdenied.
  { subst r. cbn [raise fst snd]. repeat split; try congruence. left. congruence. }
  cbv beta iota in Hr. rewrite run_bind in Hr.
  destruct img as [im |]; cbn [cv2_imwrite] in Hr.
  - assert (Hpresent : is_Some (disk w image_path)).
    { destruct (disk w image_path) as [present |] eqn:Hdisk; [eauto |]. exfalso.
      apply degrade_loop_None in Hloop; [| reflexivity].
      apply Himg in Hloop. discriminate. }
    destruct (imwrite_has_writer E path) eqn:Hwriter; cbn [negb] in Hr.
    + destruct (imwrite_can_write E path) eqn:Hcan; cbn [negb] in Hr; subst r;
        repeat (progress (try rewrite run_ret; cbn [fst snd tape disk dirs written])).
      * split; [congruence |]. split; [exact Hpresent |]. split; [exact Hdir |].
        split; [reflexivity |]. split; [reflexivity |]. split; [congruence |].
        exists im. split; congruence.
      * split; [congruence |]. split; [exact Hpresent |]. split; [exact Hdir |].
        split; [reflexivity |]. split; [reflexivity |]. split; [congruence |].
        split; congruence.
    + subst r. cbn [raise fst snd tape disk dirs written].
      split; [congruence |]. split; [congruence |]. split; [congruence |].
      right. split; [reflexivity | congruence].
  - subst r. cbn [raise fst snd tape disk dirs written].
    split; [congruence |]. split; [congruence |]. split; [congruence |].
    right. split; [reflexivity | congruence].
Qed.

(** X4: one call of [process_image] never touches the generator's
    sequence.  If it returns, the input was readable, the output directory
    has a name, was made, and the output path has an encoder; then either
    the file system took the file, exactly one image was written at the
    output path derived from the input path, and that file (under each of
    its names) now reads back as what was written, every other file being
    as before; or [cv2.imwrite] returned [False], which the script does not
    look at, and nothing was written.  If it raises, no image was written
    and no file changed; the output directory was made only in the case
    where the failure is the final [cv2.imwrite]. *)
Theorem process_image_effects (E : Extern) (config : Config) (image_path : string)
    (w : World) :
  let r := process_image E config image_path w in
  let output_path := output_path_of E config image_path in
  let dir := os_path_dirname E output_path in
  tape r.2 = tape w /\
  match r.1 with
  | Ok _ =>
      is_Some (disk w image_path) /\
      dir <> "" /\ makedirs_denied E dir = false /\
      imwrite_has_writer E output_path = true /\
      dirs r.2 = dir :: dirs w /\
      if imwrite_can_write E output_path
      then exists img,
             written r.2 = (output_path, img) :: written w /\
             disk r.2 = disk_after_write E output_path img (disk w)
      else written r.2 = written w /\ disk r.2 = disk w
  | Raise e =>
      written r.2 = written w /\ disk r.2 = disk w /\
      (dirs r.2 = dirs w \/ (e = Cv2Error "imwrite" /\ dirs r.2 = dir :: dirs w))
  end.
Proof. apply process_image_outcome. Qed.

(** ** The batch *)

Lemma process_images_app (E : Extern) (config : Config) (before after : list string)
    (w : World) :
  process_images E config (before ++ after) w
  = match process_images E config before w with
    | (Ok _, w1) => process_images E config after w1
    | (Raise e, w1) => (Raise e, w1)
    end.
Proof.
  revert w. induction before as [| image_path before IH]; intros w; [reflexivity |].
  cbn [app process_images]. rewrite !run_bind.
  destruct (process_image E config image_path w) as [[[] | e] w1]; [apply IH | reflexivity].
Qed.

(** The batch goes through a prefix of its paths; the images written are
    the outputs of that prefix which the file system took, latest first,
    and a file that is none of these outputs is as it was. *)
Lemma process_images_outcome (E : Extern) (config : Config) (image_paths : list string)
    (w : World) :
  let r := process_images E config image_paths w in
  exists k,
    let outputs := map (output_path_of E config) (take k image_paths) in
    map fst (written r.2)
    = rev (List.filter (imwrite_can_write E) outputs) ++ map fst (written w) /\
    (forall p, forallb (other_file E p) outputs = true -> disk r.2 p = disk w p) /\
    match r.1 with
    | Ok _ => k = length image_paths
    | Raise _ => (k < length image_paths)%nat
    end.
Proof.
  revert w. induction image_paths as [| image_path rest IH]; intros w; cbv zeta.
  - exists 0%nat. repeat split.
  - cbn [process_images]. rewrite run_bind.
    pose proof (process_image_outcome E config image_path w) as Hone. cbv zeta in Hone.
    destruct (process_image E config image_path w) as [[[] | e] w1];
      cbn [fst snd] in Hone; destruct Hone as (_ & Hone).
    + destruct Hone as (_ & _ & _ & _ & _ & Hwrite).
      specialize (IH w1). cbv zeta in IH. destruct IH as (k & Hk & Hdisk & Hend).
      exists (S k). cbn [take map List.filter rev forallb]. split; [| split].
      * rewrite Hk. destruct (imwrite_can_write E (output_path_of E config image_path)).
        -- destruct Hwrite as (img & -> & _). cbn [rev map fst].
           rewrite <- app_assoc. reflexivity.
        -- destruct Hwrite as [-> _]. reflexivity.
      * intros p Hp. apply andb_prop in Hp as [Hfirst Hrest].
        rewrite (Hdisk p Hrest).
        destruct (imwrite_can_write E (output_path_of E config image_path)).
        -- destruct Hwrite as (img & _ & ->). unfold disk_after_write.
           unfold other_file in Hfirst. apply negb_true_iff in Hfirst.
           rewrite Hfirst. reflexivity.
        -- destruct Hwrite as [_ ->]. reflexivity.
      * destruct (process_images E config rest w1).1; cbn [length]; lia.
    + destruct Hone as (Hwritten & Hdisk & _). cbn [fst snd].
      exists 0%nat. cbn [take map List.filter rev forallb app]. split; [| split].
      * rewrite Hwritten. reflexivity.
      * intros p _. rewrite Hdisk. reflexivity.
      * cbn [length]. lia.
Qed.

(** X5: the batch stops at the first image that fails: when it ends it
    went through the first [k] paths, where [k] is the number of paths if
    the batch returned and is smaller if it raised, and no image after a
    failing one is processed.  The images written are the outputs of those
    [k] paths, in order, one each, those apart for which [cv2.imwrite]
    returned [False]; a file that is none of these outputs reads as it did
    before the batch. *)
Theorem batch_writes_a_prefix (E : Extern) (config : Config) (image_paths : list string)
    (w : World) :
  let r := process_images E config image_paths w in
  exists k,
    let outputs := map (output_path_of E config) (take k image_paths) in
    map fst (written r.2)
    = rev (List.filter (imwrite_can_write E) outputs) ++ map fst (written w) /\
    (forall p, forallb (other_file E p) outputs = true -> disk r.2 p = disk w p) /\
    match r.1 with
    | Ok _ => k = length image_paths
    | Raise _ => (k < length image_paths)%nat
    end.
Proof. apply process_images_outcome. Qed.

(** X6: a file that is unreadable when the batch starts, and that is not
    the output of an image before it, stops the whole batch: once the
    images before it went through, the batch raises on it, writes nothing
    for it, and the images after it are never processed.  The same holds
    of a file that is unreadable at the moment the batch reaches it. *)
Theorem unreadable_file_stops_batch (E : Extern) (config : Config)
    (before after : list string) (image_path : string) (w w1 : World) :
  process_images E config before w = (Ok tt, w1) ->
  (disk w image_path = None /\
   forallb (other_file E image_path) (map (output_path_of E config) before) = true) \/
  disk w1 image_path = None ->
  exists e w2,
    process_images E config (before ++ image_path :: after) w = (Raise e, w2) /\
    written w2 = written w1.
Proof.
  intros Hbefore Hdisk. rewrite process_images_app, Hbefore.
  assert (Hdisk1 : disk w1 image_path = None).
  { destruct Hdisk as [[Hdisk Hother] | Hdisk]; [| exact Hdisk].
    pose proof (process_images_outcome E config before w) as Hframe. cbv zeta in Hframe.
    rewrite Hbefore in Hframe. cbn [fst snd] in Hframe.
    destruct Hframe as (k & _ & Hframe & ->).
    rewrite firstn_all in Hframe. rewrite (Hframe image_path Hother). exact Hdisk. }
  cbn [process_images]. rewrite run_bind.
  pose proof (process_image_outcome E config image_path w1) as Hone. cbv zeta in Hone.
  destruct (process_image E config image_path w1) as [[[] | e] w2];
    cbn [fst snd] in Hone; destruct Hone as (_ & Hone).
  - destruct Hone as ([present Hpresent] & _). congruence.
  - destruct Hone as (Hwritten & _). exists e, w2. split; [reflexivity | exact Hwritten].
Qed.

Lemma unreadable_file_stops_batch_witness :
  exists e w2,
    process_images (Demo.extern id) Demo.config
                   (["in/a.png"] ++ "in/missing.png" :: ["in/a.png"])
                   (Demo.world (fun _ => 0)) = (Raise e, w2) /\
    written w2
    = written (process_images (Demo.extern id) Demo.config ["in/a.png"]
                 (Demo.world (fun _ => 0))).2.
Proof.
  apply (unreadable_file_stops_batch (Demo.extern id) Demo.config ["in/a.png"] ["in/a.png"]
           "in/missing.png" (Demo.world (fun _ => 0))
           (process_images (Demo.extern id) Demo.config ["in/a.png"]
              (Demo.world (fun _ => 0))).2).
  - vm_compute. reflexivity.
  - left. split; vm_compute; reflexivity.
Defined.

(** ** The recorded descriptions *)

Lemma annotation_calls_length (config : Config) (order : Z) (all_text : list string) :
  length (annotation_calls config order all_text) = length all_text.
Proof.
  revert order. induction all_text as [| text rest IH]; intros order; cbn.
  - reflexivity.
  - rewrite IH. reflexivity.
Qed.

(** A loop that returns has appended one line for each degradation. *)
Lemma degrade_loop_lines (E : Extern) (config : Config) (order : list string)
    (st st' : loop_state) (w w' : World) :
  degrade_loop E config st order w = (Ok st', w') ->
  exists texts,
    length texts = length order /\
    ls_all_text st'
    = ls_all_text st ++ zip_with (fun d t => d +:+ " " +:+ t) order texts.
Proof.
  revert st w. induction order as [| d rest IH]; intros st w; cbn [degrade_loop].
  - intros H. apply ret_ok_inv in H as [-> _]. exists []. rewrite app_nil_r. auto.
  - intros H. bind_inv H as st1 Hstep.
    destruct (degrade_step_ok_inv _ _ _ _ _ _ _ Hstep) as (t & _ & Hline).
    destruct (IH _ _ H) as (texts & Hlen & Hlines).
    exists (t :: texts). split; [cbn; lia |].
    rewrite Hlines, Hline, <- app_assoc. reflexivity.
Qed.

(** X7: when the degradation loop of [process_image] returns, it has
    recorded exactly one line for each entry of the order, in order, each
    made of the entry's name, a space and a description; so the annotation
    draws as many lines as there are configured degradations, whether their
    names are known or not. *)
Theorem one_line_per_degradation (E : Extern) (config : Config) (order : list string)
    (image : pyimage) (st : loop_state) (w w' : World) :
  degrade_loop E config (LoopState image None []) order w = (Ok st, w') ->
  (exists texts,
     length texts = length order /\
     ls_all_text st = zip_with (fun d t => d +:+ " " +:+ t) order texts) /\
  length (annotation_calls config 1 (ls_all_text st)) = length order.
Proof.
  intros Hloop. destruct (degrade_loop_lines _ _ _ _ _ _ _ Hloop) as (texts & Hlen & Hlines).
  cbn [ls_all_text app] in Hlines. split; [exists texts; auto |].
  rewrite annotation_calls_length, Hlines, length_zip_with_l_eq; [reflexivity | lia].
Qed.

Lemma one_line_per_degradation_witness :
  (exists texts,
     length texts = length ["blur"] /\
     ls_all_text (LoopState (Some Demo.picture) (Some "") ["blur "])
     = zip_with (fun d t => d +:+ " " +:+ t) ["blur"] texts) /\
  length (annotation_calls
            (Demo.configure ["blur"] "median" "uniform" "jpeg" "nearest" half true false)
            1 (ls_all_text (LoopState (Some Demo.picture) (Some "") ["blur "])))
  = length ["blur"].
Proof.
  apply (one_line_per_degradation (Demo.extern id)
           (Demo.configure ["blur"] "median" "uniform" "jpeg" "nearest" half true false)
           ["blur"] (Some Demo.picture)
           (LoopState (Some Demo.picture) (Some "") ["blur "])
           (Demo.world (fun _ => 0)) (Demo.world (fun _ => 0)) eq_refl).
Defined.

(** ** Names the loop does not know *)

Lemma degrade_step_unknown (E : Extern) (config : Config) (st : loop_state)
    (name : string) (w : World) :
  name ∉ known_degradations ->
  degrade_step E config st name w =
  match ls_text st with
  | Some t =>
      (Ok (LoopState (ls_image st) (Some t) (ls_all_text st ++ [name +:+ " " +:+ t])), w)
  | None => (Raise (UnboundLocalError "text"), w)
  end.
Proof.
  unfold known_degradations. rewrite !elem_of_cons, elem_of_nil. intros Hname.
  unfold degrade_step.
  destruct (String.eqb_spec name "blur"); [tauto |].
  destruct (String.eqb_spec name "noise"); [tauto |].
  destruct (String.eqb_spec name "compression"); [tauto |].
  destruct (String.eqb_spec name "scale"); [tauto |].
  rewrite run_bind, run_ret. destruct (ls_text st); reflexivity.
Qed.

(** X8: if none of the names read from the [degradations] entry is one of
    [blur], [noise], [compression], [scale] (an empty entry reads as the one
    name [""]), then [process_image] raises [UnboundLocalError] on every
    image, readable or not, shuffled or not, and touches no file: the image
    is not copied through. *)
Theorem no_known_degradation (E : Extern) (config : Config) (raw image_path : string)
    (w : World) :
  degradations config = split_commas raw ->
  Forall (fun name => name ∉ known_degradations) (split_commas raw) ->
  exists w',
    process_image E config image_path w = (Raise (UnboundLocalError "text"), w') /\
    file_system w' = file_system w.
Proof.
  intros Hread Hunknown.
  assert (Horder : exists order w1,
            degradation_order config w = (Ok order, w1) /\
            order ≡ₚ split_commas raw).
  { unfold degradation_order. rewrite Hread.
    destruct (degradations_randomize config).
    - apply shuffle_Permutation.
    - exists (split_commas raw), w. split; reflexivity. }
  destruct Horder as (order & w1 & Horder & Hperm).
  pose proof (preserves_degradation_order file_system file_system_cursor_blind config w)
    as Hframe.
  rewrite Horder in Hframe. cbn [snd] in Hframe.
  rewrite <- Hperm in Hunknown.
  destruct order as [| name rest].
  { apply Permutation_nil_l in Hperm. symmetry in Hperm.
    exfalso. exact (py_split_nonempty _ _ Hperm). }
  apply Forall_cons in Hunknown as [Hname _].
  exists w1. split; [| exact Hframe].
  unfold process_image. rewrite run_bind. unfold cv2_imread at 1. cbv beta iota.
  rewrite run_bind, Horder, run_bind. cbn [degrade_loop].
  rewrite run_bind, degrade_step_unknown by exact Hname. reflexivity.
Qed.

Lemma no_known_degradation_witness :
  exists w',
    process_image (Demo.extern id)
      (Demo.configure (split_commas "") "average" "uniform" "jpeg" "nearest" half true true)
      "in/a.png" (Demo.world (fun _ => 0))
    = (Raise (UnboundLocalError "text"), w') /\
    file_system w' = file_system (Demo.world (fun _ => 0)).
Proof.
  apply (no_known_degradation (Demo.extern id)
           (Demo.configure (split_commas "") "average" "uniform" "jpeg" "nearest"
                           half true true)
           "" "in/a.png" (Demo.world (fun _ => 0)) eq_refl).
  repeat constructor. unfold known_degradations.
  rewrite !elem_of_cons, elem_of_nil. intros [H | [H | [H | [H | []]]]]; discriminate H.
Defined.

(** ** Choosing an algorithm *)

(** X9: the algorithm an operator works with is always one of the
    configured ones: the first of the list, with no draw made, when
    [randomize] is off, and some member of the list when it is on; an empty
    list raises [IndexError]. *)
Theorem choose_algorithm_member (randomize : bool) (algorithms : list string) (w : World) :
  match algorithms with
  | [] => exists what, choose_algorithm randomize algorithms w = (Raise (IndexError what), w)
  | first :: _ =>
      exists algorithm w',
        choose_algorithm randomize algorithms w = (Ok algorithm, w') /\
        algorithm ∈ algorithms /\
        (randomize = false -> algorithm = first /\ w' = w)
  end.
Proof.
  unfold choose_algorithm, choice, first_item.
  destruct algorithms as [| first rest]; destruct randomize; try (eexists; reflexivity).
  - rewrite run_bind, run_randbelow, run_ret.
    set (seq := first :: rest).
    pose proof (Z.mod_pos_bound (tape w (cursor w)) (Z.of_nat (length seq))
                  ltac:(cbn [seq length]; lia)) as Hbound.
    destruct (lookup_lt_is_Some_2 seq
                (Z.to_nat (tape w (cursor w) mod Z.of_nat (length seq)))
                ltac:(lia)) as [chosen Hchosen].
    exists chosen, (advance w). rewrite Hchosen. cbn [default from_option].
    split; [reflexivity |]. split; [| discriminate].
    apply list_elem_of_lookup. eauto.
  - exists first, w. split; [reflexivity |]. split; [| auto]. apply list_elem_of_here.
Qed.

(** ** Ranges the configuration gets wrong *)

Lemma run_randint_empty (a b : Z) (w : World) :
  b < a -> randint (a, b) w = (Raise (ValueError "randint"), w).
Proof.
  intros Hlt. unfold randint. destruct (Z.ltb_spec b a); [reflexivity | lia].
Qed.

(** X10: a blur or noise range whose upper bound is below its lower bound
    is not rejected when the configuration is read; it makes the operator
    raise the [ValueError] of [randint] each time one of its algorithms
    runs, before the image is used, so even on an absent image (for [gray]
    the image's shape is read first). *)
Theorem inverted_range_raises (E : Extern) (config : Config) (image : pyimage)
    (w w1 : World) (algorithm : string) :
  (choose_algorithm (blur_randomize config) (blur_algorithms config) w
     = (Ok algorithm, w1) ->
   algorithm ∈ ["average"; "gaussian"; "isotropic"; "anisotropic"] ->
   (blur_range config).2 < (blur_range config).1 ->
   apply_blur E config image w = (Raise (ValueError "randint"), w1)) /\
  (choose_algorithm (noise_randomize config) (noise_algorithms config) w
     = (Ok algorithm, w1) ->
   algorithm ∈ ["uniform"; "gaussian"; "color"; "gray"] ->
   (noise_range config).2 < (noise_range config).1 ->
   algorithm = "gray" -> is_Some image ->
   apply_noise config image w = (Raise (ValueError "randint"), w1)) /\
  (choose_algorithm (noise_randomize config) (noise_algorithms config) w
     = (Ok algorithm, w1) ->
   algorithm ∈ ["uniform"; "gaussian"; "color"] ->
   (noise_range config).2 < (noise_range config).1 ->
   apply_noise config image w = (Raise (ValueError "randint"), w1)).
Proof.
  split; [| split].
  - intros Halg Hin Hrange. unfold apply_blur, gaussian_ksize.
    erewrite run_bind_ok by exact Halg.
    destruct (blur_range config) as [lo hi]. cbn [fst snd] in Hrange.
    rewrite !elem_of_cons, elem_of_nil in Hin.
    destruct Hin as [-> | [-> | [-> | [-> | []]]]]; cbn [String.eqb Ascii.eqb Bool.eqb];
      rewrite ?run_bind, ?run_bind, run_randint_empty by exact Hrange; reflexivity.
  - intros Halg _ Hrange -> [im ->]. unfold apply_noise.
    erewrite run_bind_ok by exact Halg.
    destruct (noise_range config) as [lo hi]. cbn [fst snd] in Hrange.
    cbn [String.eqb Ascii.eqb Bool.eqb get_shape].
    rewrite run_bind, run_ret, run_bind, run_randint_empty by exact Hrange. reflexivity.
  - intros Halg Hin Hrange. unfold apply_noise.
    erewrite run_bind_ok by exact Halg.
    destruct (noise_range config) as [lo hi]. cbn [fst snd] in Hrange.
    rewrite !elem_of_cons, elem_of_nil in Hin.
    destruct Hin as [-> | [-> | [-> | []]]]; cbn [String.eqb Ascii.eqb Bool.eqb];
      rewrite run_bind, run_randint_empty by exact Hrange; reflexivity.
Qed.

Lemma inverted_range_raises_witness :
  apply_blur (Demo.extern id) (Demo.with_blur_range (6, 1) Demo.config) None
             (Demo.world (fun _ => 0))
  = (Raise (ValueError "randint"), Demo.world (fun _ => 0)).
Proof.
  apply (proj1 (inverted_range_raises (Demo.extern id)
                  (Demo.with_blur_range (6, 1) Demo.config) None
                  (Demo.world (fun _ => 0)) (Demo.world (fun _ => 0)) "gaussian")
           eq_refl).
  - rewrite !elem_of_cons. right. left. reflexivity.
  - cbn. lia.
Defined.

(** ** The blur operator on a present image *)

Lemma odd_kernel_of_sigma (sigma : Z) : Z.odd (8 * sigma + 1) = true.
Proof.
  replace (8 * sigma + 1) with (1 + 2 * (4 * sigma)) by lia.
  rewrite Z.odd_add_mul_2. reflexivity.
Qed.

(** X11: on a present image that is not empty and a blur range
    [lo <= hi] with [hi <= 4096], [gaussian] returns for every sample when
    [0 <= lo] (a sample of 0 is turned into the kernel size 1), so do
    [isotropic] and [anisotropic], and [average] returns when [1 <= lo];
    the image returned has the shape of the input.  [average] raises the
    [cv2.error] of [cv2.blur] on a range that is not positive ([hi <= 0])
    and on a range above the C [int] of the binding; [isotropic] raises the
    [cv2.error] of [cv2.GaussianBlur] when every kernel size [8 * sigma + 1]
    is above that [int], from [sigma = 2^28] on. *)
Theorem apply_blur_returns (E : Extern) (config : Config) (im : image) (w w1 : World)
    (algorithm : string) (lo hi : Z) :
  choose_algorithm (blur_randomize config) (blur_algorithms config) w
    = (Ok algorithm, w1) ->
  blur_range config = (lo, hi) ->
  lo <= hi ->
  non_empty im ->
  (algorithm = "average" /\ 1 <= lo /\ hi <= 4096 \/
   (algorithm = "gaussian" \/ algorithm = "isotropic" \/ algorithm = "anisotropic")
   /\ 0 <= lo /\ hi <= 4096 ->
   exists out text w',
     apply_blur E config (Some im) w = (Ok (Some out, text), w') /\
     shape out = shape im) /\
  (algorithm = "average" -> hi <= 0 \/ INT_MAX < lo ->
   apply_blur E config (Some im) w = (Raise (Cv2Error "blur"), advance w1)) /\
  (algorithm = "isotropic" -> 2 ^ 28 <= lo -> hi <= 2 ^ 53 ->
   apply_blur E config (Some im) w = (Raise (Cv2Error "GaussianBlur"), advance w1)).
Proof.
  intros Halg Hrange Hle Him.
  pose proof (Z.mod_pos_bound (tape w1 (cursor w1)) (hi - lo + 1)) as Hx.
  pose proof (Z.mod_pos_bound (tape w1 (S (cursor w1))) (hi - lo + 1)) as Hy.
  set (k := lo + tape w1 (cursor w1) mod (hi - lo + 1)) in *.
  set (k' := lo + tape w1 (S (cursor w1)) mod (hi - lo + 1)) in *.
  assert (Haverage : algorithm = "average" ->
            apply_blur E config (Some im) w
            = (out ← cv2_blur E (Some im) (k, k);
               mret (Some out, "average ksize=" +:+ pretty k)) (advance w1)).
  { intros ->. unfold apply_blur. erewrite run_bind_ok by exact Halg.
    cbn [String.eqb Ascii.eqb Bool.eqb].
    rewrite Hrange, run_bind, run_randint by exact Hle. reflexivity. }
  split; [| split].
  - intros [(-> & Hlo & Hhi) | ([-> | [-> | ->]] & Hlo & Hhi)].
    + rewrite (Haverage eq_refl), run_bind, run_cv2_blur
        by (try exact Him; unfold INT_MAX; lia).
      eexists _, _, _. split; reflexivity.
    + rewrite (apply_blur_gaussian E config (Some im) lo hi w w1 Halg Hrange Hle).
      fold k. pose proof (lor_1 k) as Hlor.
      assert (Hk : 0 < Z.lor k 1 <= INT_MAX).
      { rewrite Hlor. unfold INT_MAX. destruct (Z.odd k) eqn:Hodd; [| lia].
        assert (k <> 0) by (intros Hz; rewrite Hz in Hodd; discriminate). lia. }
      rewrite run_bind, run_cv2_GaussianBlur by (auto using lor_1_odd).
      eexists _, _, _. split; reflexivity.
    + rewrite (apply_blur_isotropic E config (Some im) lo hi w w1 Halg Hrange Hle).
      fold k. rewrite run_bind, ksize_of_sigma_formula by lia.
      rewrite run_bind, run_cv2_GaussianBlur
        by (try exact Him; try apply odd_kernel_of_sigma; unfold INT_MAX; lia).
      eexists _, _, _. split; reflexivity.
    + rewrite (apply_blur_anisotropic E config (Some im) lo hi w w1 Halg Hrange Hle).
      fold k k'. rewrite run_bind, ksize_of_sigma_formula by lia.
      rewrite run_bind, ksize_of_sigma_formula by lia.
      rewrite run_bind, run_cv2_GaussianBlur
        by (try exact Him; try apply odd_kernel_of_sigma; unfold INT_MAX; lia).
      eexists _, _, _. split; reflexivity.
  - intros Ha Hbad. rewrite (Haverage Ha), run_bind. unfold cv2_blur. cbn [fst snd].
    destruct (0 <? height im); [| reflexivity].
    destruct (0 <? width im); [| reflexivity]. cbn [andb].
    destruct (Z.ltb_spec 0 k); [| reflexivity].
    destruct (Z.leb_spec k INT_MAX); [lia | reflexivity].
  - intros -> Hlo Hhi.
    rewrite (apply_blur_isotropic E config (Some im) lo hi w w1 Halg Hrange Hle).
    fold k. rewrite run_bind, ksize_of_sigma_formula by lia.
    rewrite run_bind. unfold cv2_GaussianBlur. cbn [fst snd].
    destruct (Z.leb_spec k 0); [lia |].
    destruct (Z.leb_spec (8 * k + 1) 0); [lia |]. cbn [andb].
    destruct (0 <? height im); [| reflexivity].
    destruct (0 <? width im); [| reflexivity]. cbn [andb].
    destruct (Z.ltb_spec 0 (8 * k + 1)); [| reflexivity].
    destruct (Z.leb_spec (8 * k + 1) INT_MAX); [unfold INT_MAX in *; lia | reflexivity].
Qed.

Lemma apply_blur_returns_witness :
  exists out text w',
    apply_blur (Demo.extern id) Demo.config (Some Demo.picture) (Demo.world (fun _ => 0))
    = (Ok (Some out, text), w') /\
    shape out = shape Demo.picture.
Proof.
  apply (proj1 (apply_blur_returns (Demo.extern id) Demo.config Demo.picture
                  (Demo.world (fun _ => 0)) (Demo.world (fun _ => 0)) "gaussian" 1 6
                  eq_refl eq_refl ltac:(lia) ltac:(split; reflexivity))).
  right. split; [left; reflexivity | lia].
Defined.

(** ** Sizes that truncate to nothing *)

Lemma run_cv2_resize_empty (E : Extern) (src : pyimage) (w h : Z)
    (interp : interpolation) (wd : World) :
  w <= 0 \/ h <= 0 ->
  cv2_resize E src (w, h) interp wd = (Raise (Cv2Error "resize"), wd).
Proof.
  intros Hempty. unfold cv2_resize. destruct src as [im |]; [| reflexivity].
  destruct (0 <? height im), (0 <? width im); cbn [andb]; try reflexivity.
  destruct (Z.ltb_spec 0 w); cbn [andb]; [| reflexivity].
  destruct (w <=? INT_MAX); cbn [andb]; [| reflexivity].
  destruct (Z.ltb_spec 0 h); cbn [andb]; [lia | reflexivity].
Qed.

(** X12: the scale operator raises the [cv2.error] of [cv2.resize] when a
    target dimension truncates to 0 or below (a small image, a small or
    negative [size_factor]), on the direct path and, after a first resize
    that went through, on the [down_up] path; on the [down_up] path it
    raises it already when the intermediate size truncates to nothing,
    whatever the target size is. *)
Theorem apply_scale_empty_size (E : Extern) (config : Config) (im : image)
    (w w1 : World) (new_h new_w : Z) :
  trunc_scaled (height im) (size_factor config) = Some new_h ->
  trunc_scaled (width im) (size_factor config) = Some new_w ->
  (forall algorithm interp,
     choose_algorithm (scale_randomize config) (scale_algorithms config) w
       = (Ok algorithm, w1) ->
     interpolation_map !! algorithm = Some interp ->
     new_w <= 0 \/ new_h <= 0 ->
     apply_scale E config (Some im) w = (Raise (Cv2Error "resize"), w1)) /\
  (forall algorithm1 algorithm2 interp1 scale_factor mid_h mid_w w2 w3,
     choose_algorithm (scale_randomize config) (scale_algorithms config) w
       = (Ok "down_up", w1) ->
     down_up_pair config w1 = (Ok (algorithm1, algorithm2), w2) ->
     np_random_uniform (scale_range config) w2 = (Ok scale_factor, w3) ->
     trunc_scaled (width im) scale_factor = Some mid_w ->
     trunc_scaled (height im) scale_factor = Some mid_h ->
     interpolation_map !! algorithm1 = Some interp1 ->
     mid_w <= 0 \/ mid_h <= 0 ->
     apply_scale E config (Some im) w = (Raise (Cv2Error "resize"), w3)) /\
  (forall algorithm1 algorithm2 interp1 interp2 scale_factor mid_h mid_w w2 w3,
     choose_algorithm (scale_randomize config) (scale_algorithms config) w
       = (Ok "down_up", w1) ->
     down_up_pair config w1 = (Ok (algorithm1, algorithm2), w2) ->
     np_random_uniform (scale_range config) w2 = (Ok scale_factor, w3) ->
     trunc_scaled (width im) scale_factor = Some mid_w ->
     trunc_scaled (height im) scale_factor = Some mid_h ->
     interpolation_map !! algorithm1 = Some interp1 ->
     interpolation_map !! algorithm2 = Some interp2 ->
     0 < height im -> 0 < width im ->
     0 < mid_w <= INT_MAX -> 0 < mid_h <= INT_MAX ->
     new_w <= 0 \/ new_h <= 0 ->
     apply_scale E config (Some im) w = (Raise (Cv2Error "resize"), w3)).
Proof.
  intros Hnh Hnw. split; [| split].
  - intros algorithm interp Halg Hinterp Hempty.
    unfold apply_scale. cbn [get_shape]. rewrite run_bind, run_ret.
    unfold shape. cbv beta iota.
    erewrite run_bind_ok by (apply scaled_ok; eauto).
    erewrite run_bind_ok by (apply scaled_ok; eauto).
    erewrite run_bind_ok by exact Halg.
    destruct (String.eqb_spec algorithm "down_up") as [-> | _].
    { rewrite down_up_not_an_interpolation in Hinterp. discriminate. }
    unfold interpolation_of. rewrite Hinterp, run_bind, run_ret.
    rewrite run_bind, run_cv2_resize_empty by exact Hempty. reflexivity.
  - intros a1 a2 i1 scale_factor mid_h mid_w w2 w3 Halg Hpair Hfactor Hmw Hmh Hi1 Hempty.
    unfold apply_scale. cbn [get_shape]. rewrite run_bind, run_ret.
    unfold shape. cbv beta iota.
    erewrite run_bind_ok by (apply scaled_ok; eauto).
    erewrite run_bind_ok by (apply scaled_ok; eauto).
    erewrite run_bind_ok by exact Halg.
    change (String.eqb "down_up" "down_up") with true. cbv iota.
    erewrite run_bind_ok by exact Hpair. cbv beta iota.
    erewrite run_bind_ok by exact Hfactor.
    erewrite run_bind_ok by (apply scaled_ok; eauto).
    erewrite run_bind_ok by (apply scaled_ok; eauto).
    unfold interpolation_of. rewrite Hi1, run_bind, run_ret.
    rewrite run_bind, run_cv2_resize_empty by exact Hempty. reflexivity.
  - intros a1 a2 i1 i2 scale_factor mid_h mid_w w2 w3 Halg Hpair Hfactor Hmw Hmh Hi1 Hi2
           Hh Hw Hdw Hdh Hempty.
    unfold apply_scale. cbn [get_shape]. rewrite run_bind, run_ret.
    unfold shape. cbv beta iota.
    erewrite run_bind_ok by (apply scaled_ok; eauto).
    erewrite run_bind_ok by (apply scaled_ok; eauto).
    erewrite run_bind_ok by exact Halg.
    change (String.eqb "down_up" "down_up") with true. cbv iota.
    erewrite run_bind_ok by exact Hpair. cbv beta iota.
    erewrite run_bind_ok by exact Hfactor.
    erewrite run_bind_ok by (apply scaled_ok; eauto).
    erewrite run_bind_ok by (apply scaled_ok; eauto).
    unfold interpolation_of. rewrite Hi1, run_bind, run_ret.
    rewrite run_bind, run_cv2_resize by assumption.
    rewrite Hi2, run_bind, run_ret.
    rewrite run_bind, run_cv2_resize_empty by exact Hempty. reflexivity.
Qed.

Lemma apply_scale_empty_size_witness :
  apply_scale (Demo.extern id)
    (Demo.configure ["scale"] "average" "uniform" "jpeg" "nearest" quarter false false)
    (Some Demo.picture) (Demo.world (fun _ => 0))
  = (Raise (Cv2Error "resize"), Demo.world (fun _ => 0)).
Proof.
  apply (proj1 (apply_scale_empty_size (Demo.extern id)
           (Demo.configure ["scale"] "average" "uniform" "jpeg" "nearest" quarter
                           false false)
           Demo.picture (Demo.world (fun _ => 0)) (Demo.world (fun _ => 0)) 0 0
           eq_refl eq_refl) "nearest" INTER_NEAREST eq_refl eq_refl).
  left. lia.
Defined.

(** ** A bitrate that is not configured *)

(** X13: for [mpeg] and [mpeg2] on a present image, a missing
    [mpegbitrate] or [mpeg2bitrate] option raises [NoOptionError] for that
    option before any codec runs: nothing is logged and no draw is made
    beyond the choice of the algorithm. *)
Theorem missing_bitrate_raises (E : Extern) (config : Config) (im : image)
    (w w1 : World) (algorithm : string) :
  choose_algorithm (compression_randomize config) (compression_algorithms config) w
    = (Ok algorithm, w1) ->
  algorithm = "mpeg" /\ mpegbitrate config = None \/
  algorithm = "mpeg2" /\ mpeg2bitrate config = None ->
  apply_compression E config (Some im) w
  = (Raise (NoOptionError (algorithm +:+ "bitrate")), w1).
Proof.
  intros Halg Hmissing. unfold apply_compression. erewrite run_bind_ok by exact Halg.
  destruct Hmissing as [[-> Hnone] | [-> Hnone]];
    cbn [String.eqb Ascii.eqb Bool.eqb orb];
    unfold compress_video, output_args_of; cbn [shape String.eqb Ascii.eqb Bool.eqb];
    rewrite Hnone; reflexivity.
Qed.

Lemma missing_bitrate_raises_witness :
  apply_compression (Demo.extern id) (without_bitrates "mpeg2" half Demo.config)
                    (Some Demo.picture) (Demo.world (fun _ => 0))
  = (Raise (NoOptionError ("mpeg2" +:+ "bitrate")), Demo.world (fun _ => 0)).
Proof.
  apply (missing_bitrate_raises (Demo.extern id) (without_bitrates "mpeg2" half Demo.config)
           Demo.picture (Demo.world (fun _ => 0)) (Demo.world (fun _ => 0)) "mpeg2"
           eq_refl).
  right. split; reflexivity.
Defined.

(** ** Gray noise *)

Lemma broadcast_channels_lookup (plane : list Z) (p c : nat) (n : Z) :
  plane !! p = Some n -> (c < 3)%nat ->
  broadcast_channels plane !! (3 * p + c)%nat = Some n.
Proof.
  unfold broadcast_channels. revert p.
  induction plane as [| n0 plane IH]; intros p Hp Hc; [discriminate |].
  destruct p as [| p].
  - cbn in Hp. injection Hp as ->. cbn [flat_map app].
    destruct c as [| [| [| c]]]; try lia; reflexivity.
  - cbn [flat_map app]. replace (3 * S p + c)%nat with (S (S (S (3 * p + c)))) by lia.
    cbn [lookup list_lookup]. apply IH; assumption.
Qed.

(** X14: [gray] noise is one noise plane added to all three channels: when
    the operator returns, there is a plane of one [uint8] sample per pixel
    such that each of the three samples of pixel [p] is the input sample
    plus the plane's sample at [p], modulo 256. *)
Theorem gray_noise_same_on_three_channels (config : Config) (im out : image)
    (w w1 w' : World) (text : string) :
  choose_algorithm (noise_randomize config) (noise_algorithms config) w
    = (Ok "gray", w1) ->
  apply_noise config (Some im) w = (Ok (Some out, text), w') ->
  exists plane,
    length plane = Z.to_nat (height im * width im * 1) /\
    Forall is_byte plane /\
    forall p c v n,
      (c < 3)%nat ->
      data im !! (3 * p + c)%nat = Some v ->
      plane !! p = Some n ->
      data out !! (3 * p + c)%nat = Some (wrapping_add v n).
Proof.
  intros Halg H. unfold apply_noise in H.
  bind_inv H as a Ha. rewrite Halg in Ha. injection Ha as <- <-.
  cbn [String.eqb Ascii.eqb Bool.eqb get_shape] in H.
  bind_inv H as shp Hshp. apply ret_ok_inv in Hshp as [-> ->].
  bind_inv H as s Hs. bind_inv H as plane Hplane.
  apply ret_ok_inv in H as [[= -> _] _].
  apply random_bytes_ok_inv in Hplane as [Hlen Hbytes].
  exists plane. split; [exact Hlen |]. split; [exact Hbytes |].
  intros p c v n Hc Hv Hn. cbn [np_iadd data].
  rewrite lookup_zip_with, Hv. cbn [mbind option_bind].
  rewrite (broadcast_channels_lookup plane p c n Hn Hc). reflexivity.
Qed.

Lemma gray_noise_same_on_three_channels_witness :
  exists plane,
    length plane = Z.to_nat (height Demo.picture * width Demo.picture * 1) /\
    Forall is_byte plane /\
    forall p c v n,
      (c < 3)%nat ->
      data Demo.picture !! (3 * p + c)%nat = Some v ->
      plane !! p = Some n ->
      data (np_iadd Demo.picture (broadcast_channels (repeat 10 6))) !! (3 * p + c)%nat
      = Some (wrapping_add v n).
Proof.
  apply (gray_noise_same_on_three_channels
           (Demo.configure [] "average" "gray" "jpeg" "nearest" half false false)
           Demo.picture (np_iadd Demo.picture (broadcast_channels (repeat 10 6)))
           (Demo.world (fun _ => 10)) (Demo.world (fun _ => 10))
           (Nat.iter 7 advance (Demo.world (fun _ => 10))) "gray s=(10,)"
           eq_refl).
  vm_compute. reflexivity.
Defined.

(** ** What gets logged *)

Lemma logs_of_preserves {A : Type} (m : M A) :
  preserves logged m -> logs_only_reshape m.
Proof. intros Hm w. left. apply Hm. Qed.

Lemma logs_bind {A A' : Type} (m : M A) (f : A -> M A') :
  logs_only_reshape m -> (forall a, logs_only_reshape (f a)) ->
  logs_only_reshape (m ≫= f).
Proof.
  intros Hm Hf w. rewrite run_bind. specialize (Hm w).
  destruct (m w) as [[a | e] w1]; cbn [fst snd] in *.
  - destruct Hm as [Hsame | (width & height & err & Hraise & _)]; [| discriminate].
    destruct (Hf a w1) as [Hsame' | (width & height & err & Hraise & Hlog)].
    + left. congruence.
    + right. exists width, height, err. split; [exact Hraise | congruence].
  - destruct Hm as [Hsame | (width & height & err & [= ->] & Hlog)]; [left; exact Hsame |].
    right. exists width, height, err. split; [reflexivity | exact Hlog].
Qed.

Lemma preserves_output_args_of {B : Type} (view : World -> B) (config : Config)
    (algorithm : string) :
  cursor_blind view -> preserves view (output_args_of config algorithm).
Proof.
  intros Hcursor. pose proof (preserves_randint view Hcursor).
  unfold output_args_of, config_get. frame.
Qed.

Lemma logs_compress_video (E : Extern) (config : Config) (algorithm : string)
    (image : pyimage) :
  logs_only_reshape (compress_video E config algorithm image).
Proof.
  intros w. unfold compress_video. destruct image as [im |]; [| left; reflexivity].
  cbn [shape]. rewrite run_bind.
  pose proof (preserves_output_args_of logged config algorithm logged_cursor_blind w)
    as Hargs.
  destruct (output_args_of config algorithm w) as [[args | e] w1]; cbn [snd] in Hargs;
    [| left; exact Hargs].
  destruct (codec_round_trip E algorithm args im) as [out err].
  unfold try_except_ValueError. rewrite run_bind, run_reshape.
  destruct (Z.of_nat (length out) =? height im * width im * 3).
  - left. destruct args as [| first_arg rest]; exact Hargs.
  - right. exists (width im), (height im), err. split; [reflexivity |].
    rewrite <- Hargs. reflexivity.
Qed.

Lemma logs_apply_compression (E : Extern) (config : Config) (image : pyimage) :
  logs_only_reshape (apply_compression E config image).
Proof.
  pose proof logged_cursor_blind as Hcursor.
  pose proof (preserves_randint logged Hcursor).
  unfold apply_compression. apply logs_bind.
  { apply logs_of_preserves, preserves_choose_algorithm, Hcursor. }
  intros algorithm.
  destruct (String.eqb algorithm "jpeg").
  { apply logs_of_preserves. unfold cv2_imencode, cv2_imdecode_copy. frame. }
  destruct (String.eqb algorithm "webp").
  { apply logs_of_preserves. unfold cv2_imencode, cv2_imdecode_copy. frame. }
  destruct (_ || _).
  - apply logs_compress_video.
  - apply logs_of_preserves. frame.
Qed.

Lemma logs_degrade_step (E : Extern) (config : Config) (st : loop_state)
    (degradation : string) :
  logs_only_reshape (degrade_step E config st degradation).
Proof.
  pose proof logged_cursor_blind as Hcursor.
  assert (Hret : forall (m : M (pyimage * string)),
            logs_only_reshape m ->
            logs_only_reshape ('(i, t) ← m; mret (i, Some t))).
  { intros m Hm. apply logs_bind; [exact Hm |]. intros [i t].
    apply logs_of_preserves. frame. }
  unfold degrade_step. apply logs_bind.
  - destruct (String.eqb degradation "blur").
    { apply Hret, logs_of_preserves, preserves_apply_blur, Hcursor. }
    destruct (String.eqb degradation "noise").
    { apply Hret, logs_of_preserves, preserves_apply_noise, Hcursor. }
    destruct (String.eqb degradation "compression").
    { apply Hret, logs_apply_compression. }
    destruct (String.eqb degradation "scale").
    { apply Hret, logs_of_preserves, preserves_apply_scale, Hcursor. }
    apply logs_of_preserves. frame.
  - intros [image [t |]]; apply logs_of_preserves; frame.
Qed.

Lemma logs_degrade_loop (E : Extern) (config : Config) (order : list string)
    (st : loop_state) :
  logs_only_reshape (degrade_loop E config st order).
Proof.
  revert st. induction order as [| d rest IH]; intros st; cbn [degrade_loop].
  - apply logs_of_preserves. frame.
  - apply logs_bind; [apply logs_degrade_step | exact IH].
Qed.

(** X15: [process_image] logs nothing, whatever it does, except in one
    case: it ends on the [ValueError] of the reshape in the video-codec
    path, and has then logged exactly three records, the error, the
    dimensions and the decoder's diagnostics. *)
Theorem process_image_logging (E : Extern) (config : Config) (image_path : string)
    (w : World) :
  let r := process_image E config image_path w in
  logged r.2 = logged w \/
  exists width height err,
    r.1 = Raise (ValueError "reshape") /\
    logged r.2
    = LogStderr err :: LogDimensions width height
      :: LogReshape (ValueError "reshape") :: logged w.
Proof.
  pose proof logged_cursor_blind as Hcursor.
  assert (Hlogs : logs_only_reshape (process_image E config image_path));
    [| exact (Hlogs w)].
  unfold process_image. apply logs_bind.
  { apply logs_of_preserves. intros w0. reflexivity. }
  intros image. apply logs_bind.
  { apply logs_of_preserves, preserves_degradation_order, Hcursor. }
  intros order. apply logs_bind; [apply logs_degrade_loop |].
  intros st. apply logs_bind.
  { apply logs_of_preserves. destruct (print_to_image config).
    - apply preserves_annotate_from.
    - frame. }
  intros annotated. apply logs_of_preserves. apply preserves_bind.
  - intros w0. unfold os_makedirs.
    destruct (String.eqb _ ""); [reflexivity |].
    destruct (makedirs_denied E _); reflexivity.
  - intros []. apply preserves_bind; [| intros ?; apply preserves_ret].
    intros w0. unfold cv2_imwrite. destruct annotated as [im |]; [| reflexivity].
    destruct (imwrite_has_writer E _); [| reflexivity].
    destruct (imwrite_can_write E _); reflexivity.
Qed.
